(** * gobc/encoding/bencode: the bencode value model, encoder, lexer and parser

    A shallow embedding of [core.go] (values and [Bencode]) and [parser.go]
    (lexer, parser, [Decode]) together with the pieces of the Go standard
    library they call ([bufio.Reader] over a [bytes.Reader], [math/big],
    [strconv], [sort], [fmt]).

    Conventions.
    - A Go [string] and a Go [[]byte] are both sequences of 8-bit bytes; both
      are modelled by [string] (a sequence of 8-bit [ascii] characters).
    - A Go [map[string]Bencodable] is a [gmap string Bencodable]; a nil map and
      an empty map are both the empty [gmap], a nil slice and an empty slice
      are both the empty list.
    - A Go interface value of type [Bencodable] is an [option Bencodable]:
      [None] is the nil interface. A nil [List] or nil [Dict] stored in the
      interface is NOT the nil interface (it carries its dynamic type), so it
      is [Some (VList [])] resp. [Some (VDict ∅)].
    - A Go [error] is an [option error]: [None] is nil. *)

From Stdlib Require Import ZArith NArith Lia Strings.String Strings.Ascii OrderedTypeEx.
From stdpp Require Import base option list gmap strings sorting.

Local Open Scope string_scope.
Set Warnings "-register-all".

(** ** Byte-sequence helpers *)

Fixpoint string_take (n : nat) (s : string) : string :=
  match n, s with
  | S n', String c s' => String c (string_take n' s')
  | _, _ => ""
  end.

Fixpoint string_drop (n : nat) (s : string) : string :=
  match n, s with
  | S n', String _ s' => string_drop n' s'
  | _, _ => s
  end.

Fixpoint string_repeat (c : ascii) (n : nat) : string :=
  match n with
  | O => ""
  | S n' => String c (string_repeat c n')
  end.

(** [string_cut delim s] splits [s] after the first occurrence of [delim]:
    [Some (line, rest)] with [line] ending in [delim], or [None] when [delim]
    does not occur (Go: [bytes.IndexByte] followed by slicing). *)
Fixpoint string_cut (delim : ascii) (s : string) : option (string * string) :=
  match s with
  | "" => None
  | String c s' =>
      if Ascii.eqb c delim then Some (String c "", s')
      else match string_cut delim s' with
           | Some (line, rest) => Some (String c line, rest)
           | None => None
           end
  end.

(** [d[:len(d)-1]] *)
Fixpoint string_init (s : string) : string :=
  match s with
  | "" => ""
  | String c "" => ""
  | String c s' => String c (string_init s')
  end.

Definition is_digit (c : ascii) : bool :=
  (48 <=? nat_of_ascii c)%nat && (nat_of_ascii c <=? 57)%nat.

Definition digit_val (c : ascii) : N := N_of_ascii c - 48.

Definition digit_char (d : N) : ascii := ascii_of_N (48 + d).

(** ** The Go values shared by all packages *)

(** The errors the package can return. The three sentinels are package
    variables compared by identity ([err == ErrUnexpectedEnd]); the others are
    values made by [fmt.Errorf], [io] and [strconv], never equal to a
    sentinel. *)
Inductive error : Type :=
  | ErrUnexpectedEnd                       (* "Unexpected end." *)
  | ErrUnexpectedEOF                       (* "Unexpected EOF." *)
  | ErrBadDictKey                          (* "Bad Dict Key. Expected string." *)
  | io_EOF                                 (* io.EOF *)
  | ErrInvalidInputChar (c : ascii)        (* "Invalid input char: %c" *)
  | ErrInvalidInteger                      (* "Invalid integer." *)
  | NumError_Syntax (s : string)           (* strconv.NumError{Err: ErrSyntax} *)
  | NumError_Range (s : string).           (* strconv.NumError{Err: ErrRange} *)

Global Instance error_eq_dec : EqDecision error.
Proof. solve_decision. Defined.

(** ** math/big and strconv: decimal literals *)

Module strconv.

(** Decimal digits of [n], most significant first, prepended to [acc];
    [fuel] bounds the number of digits. *)
Fixpoint digits_go (fuel : nat) (n : N) (acc : string) : string :=
  match fuel with
  | O => acc
  | S fuel' =>
      let acc' := String (digit_char (n mod 10)) acc in
      if (n <? 10)%N then acc' else digits_go fuel' (n / 10) acc'
  end.

(** [strconv.FormatUint(n, 10)], which is also what [%d] prints for a
    non-negative integer: no sign, no leading zero except for [0]. *)
Definition FormatUint (n : N) : string :=
  digits_go (S (N.to_nat (N.log2 n))) n "".

(** The value of a sequence of decimal digits, accumulated left to right
    ([acc*10 + d]) without a bound, as [math/big] scans them; [None] on a
    byte that is no digit. *)
Fixpoint digits_value (acc : N) (s : string) : option N :=
  match s with
  | "" => Some acc
  | String c s' =>
      if is_digit c then digits_value (acc * 10 + digit_val c) s' else None
  end.

(** [strconv.ParseUint(s, 10, 64)]: one or more decimal digits and nothing
    else (no sign; underscores are accepted for base 0 only). The loop goes
    through the bytes left to right with the value [n] read so far: a byte
    that is no digit is a syntax error, [n >= cutoff] (then [n*10]
    overflows) or [n*10 + d > maxVal] is a range error. *)
Definition ParseUint_cutoff : N := (2 ^ 64 - 1) / 10 + 1.
Definition ParseUint_maxVal : N := 2 ^ 64 - 1.

Fixpoint ParseUint_go (s0 : string) (n : N) (s : string) : N + error :=
  match s with
  | "" => inl n
  | String c s' =>
      if is_digit c then
        if (ParseUint_cutoff <=? n)%N then inr (NumError_Range s0)
        else
          let n1 := (n * 10 + digit_val c)%N in
          if (ParseUint_maxVal <? n1)%N then inr (NumError_Range s0)
          else ParseUint_go s0 n1 s'
      else inr (NumError_Syntax s0)
  end.

Definition ParseUint (s : string) : N + error :=
  match s with
  | "" => inr (NumError_Syntax s)
  | _ => ParseUint_go s 0 s
  end.

End strconv.

Module big.

(** [big.Int.Text(10)], which [big.Int.String] and the [%s] verb of
    [big.Int.Format] print: decimal,
    ['-'] for negative values, ["<nil>"] for a nil pointer. *)
Definition Text10 (x : option Z) : string :=
  match x with
  | None => "<nil>"
  | Some (Zneg p) => "-" +:+ strconv.FormatUint (Npos p)
  | Some z => strconv.FormatUint (Z.to_N z)
  end.

(** [big.Int.SetString(s, 10)]: an optional sign (['+'] or ['-']), then
    one or more decimal digits; the entire string must be consumed. [None]
    is the Go result [(nil, false)]. *)
Definition SetString10 (s : string) : option Z :=
  let '(neg, body) :=
    match s with
    | String.String "-"%char s' => (true, s')
    | String.String "+"%char s' => (false, s')
    | _ => (false, s)
    end in
  match body with
  | "" => None
  | _ =>
      match strconv.digits_value 0 body with
      | None => None
      | Some n => Some (if neg then (- Z.of_N n)%Z else Z.of_N n)
      end
  end.

End big.

(** ** sort *)

(** [sort.Strings]: sorts in increasing order; Go compares strings byte-wise
    lexicographically, which is [String.le]. The order being total, the
    result is the one sorted permutation of the input whichever algorithm
    produces it. *)
Definition sort_Strings (keys : list string) : list string :=
  merge_sort (≤)%string keys.

(** ** bufio.Reader over a bytes.Reader *)

Module bufio.

(** [defaultBufSize]: the size of the buffer [bufio.NewReader] allocates. *)
Definition defaultBufSize : nat := 4096.

(** The reader state. [buf] is the buffered, not yet consumed part
    [b.buf[b.r:b.w]]; [rd] is what the underlying [bytes.Reader] has not
    handed out yet. [b.err] is nil between any two calls (a [bytes.Reader]
    reports [io.EOF] only with [n = 0], and [readErr] clears it), so it is
    not part of the state. *)
Record Reader : Type := mkReader { buf : string; rd : string }.

(** [bufio.NewReader(bytes.NewReader(input))] *)
Definition NewReader (input : string) : Reader := mkReader "" input.

Definition Buffered (b : Reader) : nat := String.length (buf b).

(** [fill]: slide the buffered bytes to the front and do one [Read] of the
    underlying reader into the free space; a [bytes.Reader] hands out as
    much as fits. *)
Definition fill (b : Reader) : Reader :=
  let n := defaultBufSize - Buffered b in
  mkReader (buf b +:+ string_take n (rd b)) (string_drop n (rd b)).

(** [ReadByte]: fills the buffer when it is empty; [None] is [io.EOF]. *)
Definition ReadByte (b : Reader) : option ascii * Reader :=
  let b1 := match buf b with "" => fill b | _ => b end in
  match buf b1 with
  | "" => (None, b1)
  | String c rest => (Some c, mkReader rest (rd b1))
  end.

(** [UnreadByte]: the lexer calls it only directly after a [ReadByte] that
    returned [c]; there [b.r > 0] and [b.lastByte = c], so the call steps
    back over that byte. *)
Definition UnreadByte (c : ascii) (b : Reader) : Reader :=
  mkReader (String c (buf b)) (rd b).

(** [ReadString(delim)]: [ReadSlice] searches the buffer; when [delim] is
    not there and the buffer is full the whole buffer is taken as a
    fragment, and the buffer is filled again; at the end of the input the
    bytes read so far come back with [io.EOF]. Every round takes at least
    one byte from [rd], so [fuel = length rd] rounds are enough
    ([ReadString_go_fuel]: more fuel changes nothing). *)
Fixpoint ReadString_go (fuel : nat) (delim : ascii) (acc : string) (b : Reader)
  : string * option error * Reader :=
  match string_cut delim (buf b) with
  | Some (line, rest) => (acc +:+ line, None, mkReader rest (rd b))
  | None =>
      match rd b, fuel with
      | String _ _, S fuel' =>
          if (defaultBufSize <=? Buffered b)%nat
          then ReadString_go fuel' delim (acc +:+ buf b) (fill (mkReader "" (rd b)))
          else ReadString_go fuel' delim acc (fill b)
      | _, _ => (acc +:+ buf b, Some io_EOF, mkReader "" (rd b))
      end
  end.

Definition ReadString (delim : ascii) (b : Reader) : string * option error * Reader :=
  ReadString_go (String.length (rd b)) delim "" b.

(** [Read(p)] with [len(p) = n]: returns the bytes copied into [p[0:]]
    (their number is Go's result [n]). "The bytes are taken from at most
    one Read on the underlying Reader, hence n may be less than len(p)":
    - [n = 0]: nothing is copied;
    - the buffer is not empty: only buffered bytes are copied;
    - the buffer is empty and [n >= len(b.buf)]: one [Read] of the
      underlying reader directly into [p];
    - the buffer is empty and [n < len(b.buf)]: one [Read] of the underlying
      reader into the buffer, then a copy from the buffer. *)
Definition Read (n : nat) (b : Reader) : string * Reader :=
  match n with
  | O => ("", b)
  | _ =>
      match buf b with
      | String _ _ =>
          (string_take n (buf b), mkReader (string_drop n (buf b)) (rd b))
      | "" =>
          if (defaultBufSize <=? n)%nat
          then (string_take n (rd b), mkReader "" (string_drop n (rd b)))
          else let b1 := fill b in
               (string_take n (buf b1), mkReader (string_drop n (buf b1)) (rd b1))
      end
  end.

End bufio.

(** ** core.go: the value model *)

(** [type Integer struct { i *big.Int }]; [None] is the nil pointer of the
    zero value [Integer{}]. *)
Record Integer : Type := mkInteger { Integer_i : option Z }.

(** The four types implementing [Bencodable]:
    [Integer], [String], [List = []Bencodable], [Dict = map[string]Bencodable]. *)
Unset Elimination Schemes.
Inductive Bencodable : Type :=
  | VInteger (i : Integer)
  | VString (s : string)
  | VList (l : list Bencodable)
  | VDict (d : gmap string Bencodable).
Set Elimination Schemes.

Definition NewInt64 (i : Z) : Integer := mkInteger (Some i).

Section NewIntFromString.

(** [big.Int.SetString(s, base)] for an arbitrary base, kept abstract:
    [Some b] is Go's [(b, true)], [None] is [(nil, false)]. *)
Variable SetString : string -> Z -> option Z.

Definition NewIntFromString (s : string) (base : Z) : Integer * option error :=
  match SetString s base with
  | Some b => (mkInteger (Some b), None)
  | None => (mkInteger None, None)
  end.

End NewIntFromString.

Definition string_concat (l : list string) : string := foldr String.append "" l.

(** [func (i Integer) Bencode() []byte]: [fmt.Sprintf("i%se", i.i)] *)
Definition Integer_Bencode (i : Integer) : string :=
  "i" +:+ big.Text10 (Integer_i i) +:+ "e".

(** [func (s String) Bencode() []byte]: [fmt.Sprintf("%d:%s", len(s), s)] *)
Definition String_Bencode (s : string) : string :=
  strconv.FormatUint (N.of_nat (String.length s)) +:+ ":" +:+ s.

(** The keys of [d] as [Dict.Bencode] orders them: collected by ranging over
    the map (in whatever order), then [sort.Strings]. *)
Definition Dict_keys {A} (d : gmap string A) : list string :=
  sort_Strings (fst <$> map_to_list d).

(** [Bencode] of the four types. For a [Dict] the children are encoded through
    [fmap] (which the termination check follows into the map) and looked up
    by key, as [d[k].Bencode()] does. *)
Fixpoint Bencode (v : Bencodable) : string :=
  match v with
  | VInteger i => Integer_Bencode i
  | VString s => String_Bencode s
  | VList l => "l" +:+ string_concat (Bencode <$> l) +:+ "e"
  | VDict d =>
      let enc := Bencode <$> d in
      "d" +:+ string_concat
                ((λ k, String_Bencode k +:+ default "" (enc !! k)) <$> Dict_keys d)
          +:+ "e"
  end.

(** ** parser.go: tokens and the lexer *)

Inductive token : Type := badtok | end_ | dict | integer | list_ | str | eof.

(** The [data interface{}] of a token: nil, a [*big.Int] or a [string]. *)
Inductive tokdata : Type :=
  | nodata
  | intdata (b : Z)
  | strdata (s : string).

Record dataToken : Type := mkToken { tok : token; data : tokdata }.

(** [dataToken{}] *)
Definition zeroToken : dataToken := mkToken badtok nodata.

Abbreviation lexerImpl := bufio.Reader.

Definition newLexer (input : string) : lexerImpl := bufio.NewReader input.

Definition lexerImpl_parseInt (l : lexerImpl) : dataToken * option error * lexerImpl :=
  let '(d, err, l1) := bufio.ReadString "e" l in
  match err with
  | Some e => (zeroToken, Some e, l1)
  | None =>
      match big.SetString10 (string_init d) with
      | Some b => (mkToken integer (intdata b), None, l1)
      | None => (zeroToken, Some ErrInvalidInteger, l1)
      end
  end.

(** [out := make([]byte, sz, sz); l.r.Read(out)]: [out] starts as [sz] zero
    bytes, [Read] overwrites a prefix of it, and both results of [Read] (the
    number of bytes read and the error) are dropped. The model lets [make]
    succeed for every [sz]; Go panics for a size it cannot allocate. *)
Definition lexerImpl_parseString (l : lexerImpl) : dataToken * option error * lexerImpl :=
  let '(le, err, l1) := bufio.ReadString ":" l in
  match err with
  | Some e => (zeroToken, Some e, l1)
  | None =>
      match strconv.ParseUint (string_init le) with
      | inr e => (zeroToken, Some e, l1)
      | inl sz =>
          let '(got, l2) := bufio.Read (N.to_nat sz) l1 in
          let out := got +:+ string_repeat Ascii.zero (N.to_nat sz - String.length got) in
          (mkToken str (strdata out), None, l2)
      end
  end.

(** [unicode.IsDigit(rune(c))] of a byte is true for ['0'..'9'] only. *)
Definition lexerImpl_next (l : lexerImpl) : dataToken * option error * lexerImpl :=
  match bufio.ReadByte l with
  | (None, l1) => (mkToken eof nodata, None, l1)
  | (Some c, l1) =>
      if Ascii.eqb c "d" then (mkToken dict nodata, None, l1)
      else if Ascii.eqb c "l" then (mkToken list_ nodata, None, l1)
      else if Ascii.eqb c "e" then (mkToken end_ nodata, None, l1)
      else if Ascii.eqb c "i" then lexerImpl_parseInt l1
      else if is_digit c then lexerImpl_parseString (bufio.UnreadByte c l1)
      else (zeroToken, Some (ErrInvalidInputChar c), l1)
  end.

(** ** parser.go: the parser *)

(** What a call does: it returns a value, an error and the lexer it leaves
    behind; or it panics; or the model runs out of [fuel]. *)
Inductive outcome (A L : Type) : Type :=
  | Ret (a : A) (err : option error) (l : L)
  | Panic (msg : string)
  | OutOfFuel.
Arguments Ret {A L} a err l.
Arguments Panic {A L} msg.
Arguments OutOfFuel {A L}.

Section parser.

(** [type lexer interface { next() (dataToken, error) }] *)
Context {L : Type} (next : L -> dataToken * option error * L).

(** [parse], [parseList] and [parseDict]. [parseList fuel out l] is the
    function from its first [p.parse()] on, with [out] the list built so
    far; [parseDict fuel out l] likewise: the statements before the [for]
    loop of [parseDict] are those at the end of its body.
    [return nil, err] in [parseList] and [parseDict] returns a nil [List] or
    [Dict], which [parse] hands on as a non-nil [Bencodable].
    A list or map of the model cannot hold a nil interface; the two cases
    marked ["nil Bencodable"] stand for that, and never occur, because
    [parse] returns no nil value with a nil error ([parse_value_or_error]). *)
Fixpoint parse (fuel : nat) (l : L) : outcome (option Bencodable) L :=
  match fuel with
  | O => OutOfFuel
  | S fuel =>
      let '(t, err, l) := next l in
      match err with
      | Some e => Ret None (Some e) l
      | None =>
          match tok t with
          | dict =>
              match parseDict fuel ∅ l with
              | Ret d err l => Ret (Some (VDict d)) err l
              | Panic m => Panic m
              | OutOfFuel => OutOfFuel
              end
          | list_ =>
              match parseList fuel [] l with
              | Ret out err l => Ret (Some (VList out)) err l
              | Panic m => Panic m
              | OutOfFuel => OutOfFuel
              end
          | integer =>
              match data t with
              | intdata b => Ret (Some (VInteger (mkInteger (Some b)))) None l
              | _ => Panic "interface conversion"
              end
          | str =>
              match data t with
              | strdata s => Ret (Some (VString s)) None l
              | _ => Panic "interface conversion"
              end
          | end_ => Ret None (Some ErrUnexpectedEnd) l
          | eof => Ret None (Some ErrUnexpectedEOF) l
          | badtok => Panic "Should never be here!"
          end
      end
  end

with parseList (fuel : nat) (out : list Bencodable) (l : L)
  : outcome (list Bencodable) L :=
  match fuel with
  | O => OutOfFuel
  | S fuel =>
      match parse fuel l with
      | Ret n None l =>
          match n with
          | Some n => parseList fuel (out ++ [n]) l
          | None => Panic "nil Bencodable"
          end
      | Ret _ (Some err) l =>
          if decide (err = ErrUnexpectedEnd) then Ret out None l
          else Ret [] (Some err) l
      | Panic m => Panic m
      | OutOfFuel => OutOfFuel
      end
  end

with parseDict (fuel : nat) (out : gmap string Bencodable) (l : L)
  : outcome (gmap string Bencodable) L :=
  match fuel with
  | O => OutOfFuel
  | S fuel =>
      match parse fuel l with
      | Ret n err l =>
          if decide (err = Some ErrUnexpectedEnd) then Ret out None l
          else
            match parse fuel l with
            | Ret n2 err2 l =>
                match err, err2 with
                | None, None =>
                    match n, n2 with
                    | Some (VString k), Some v => parseDict fuel (<[k := v]> out) l
                    | Some (VString k), None => Panic "nil Bencodable"
                    | _, _ => Ret out (Some ErrBadDictKey) l
                    end
                | Some e, _ => Ret ∅ (Some e) l
                | None, Some e2 => Ret ∅ (Some e2) l
                end
            | Panic m => Panic m
            | OutOfFuel => OutOfFuel
            end
      | Panic m => Panic m
      | OutOfFuel => OutOfFuel
      end
  end.

End parser.

(** Fuel for one [Decode]: every token but [eof] takes a byte of the input,
    every nesting level and every loop round starts with a token. *)
Definition Decode_fuel (input : string) : nat := 2 * String.length input + 1.

(** [Decode] on a reader over [input]:
    [if err != nil && o == nil { return nil, err }; return o, nil]. *)
Definition Decode (input : string) : outcome (option Bencodable) unit :=
  match parse lexerImpl_next (Decode_fuel input) (newLexer input) with
  | Ret o err _ =>
      match err, o with
      | Some e, None => Ret None (Some e) tt
      | _, _ => Ret o None tt
      end
  | Panic m => Panic m
  | OutOfFuel => OutOfFuel
  end.

(** [DecodeBytes(b) = Decode(bytes.NewReader(b))],
    [DecodeString(s) = Decode(bytes.NewReader([]byte(s)))]. *)
Definition DecodeBytes (b : string) : outcome (option Bencodable) unit := Decode b.
Definition DecodeString (s : string) : outcome (option Bencodable) unit := Decode s.

Definition VInt (z : Z) : Bencodable := VInteger (NewInt64 z).

(** ** Two values that do not fit the buffer *)

(** A string of 5000 bytes: longer than the buffer of the [bufio.Reader]. *)
Definition long_string : Bencodable := VString (string_repeat "a" 5000).

(** A list holding one string of 4091 bytes, whose last byte is ['l']; its
    encoding is 4098 bytes long, so that the last byte of the string is the
    first byte beyond the first buffer load. *)
Definition straddling_list : Bencodable :=
  VList [VString (string_repeat "a" 4090 +:+ "l")].

(** What the parser has still to read: buffered and not yet buffered bytes. *)
Definition remaining (b : bufio.Reader) : nat :=
  (String.length (bufio.buf b) + String.length (bufio.rd b))%nat.

(** The tokens [next] hands out without an error carry the data [parse]
    expects. *)
Definition token_ok (t : dataToken) : Prop :=
  match tok t, data t with
  | dict, _ | list_, _ | end_, _ | eof, _ => True
  | integer, intdata _ => True
  | str, strdata _ => True
  | _, _ => False
  end.

(** ** The pairs a dictionary is read from *)

Section pairs.
Context {L : Type} (next : L → dataToken * option error * L).

(** [n] rounds of the loop of [parseDict] that go well: [p.parse()] returns
    a [String] key and no error, [p.parse()] returns a value and no error.
    The result lists the pairs in the order they are read. *)
Fixpoint read_pairs (fuel n : nat) (l : L) : option (list (string * Bencodable) * L) :=
  match n with
  | O => Some ([], l)
  | S n' =>
      match parse next fuel l with
      | Ret (Some (VString k)) None l1 =>
          match parse next fuel l1 with
          | Ret (Some v) None l2 =>
              match read_pairs fuel n' l2 with
              | Some (kvs, l3) => Some ((k, v) :: kvs, l3)
              | None => None
              end
          | _ => None
          end
      | _ => None
      end
  end.
End pairs.

(** The assignments [out[k] = v] for the pairs of [kvs], first to last. *)
Definition write_all (kvs : list (string * Bencodable)) (out : gmap string Bencodable)
  : gmap string Bencodable :=
  foldl (λ out kv, <[kv.1 := kv.2]> out) out kvs.

(** The value of the last pair of [kvs] whose key is [k]. *)
Fixpoint last_value (k : string) (kvs : list (string * Bencodable)) : option Bencodable :=
  match kvs with
  | [] => None
  | (k', v) :: kvs' =>
      match last_value k kvs' with
      | Some v' => Some v'
      | None => if decide (k' = k) then Some v else None
      end
  end.

(** ** Decimal digits and delimiters *)

(** Every byte of [s] is a decimal digit. *)
Fixpoint all_digits (s : string) : bool :=
  match s with
  | "" => true
  | String c s' => is_digit c && all_digits s'
  end.

(** No byte of [s] is [delim]. *)
Fixpoint free_of (delim : ascii) (s : string) : bool :=
  match s with
  | "" => true
  | String c s' => negb (Ascii.eqb c delim) && free_of delim s'
  end.

(** ** Well-formed values *)

(** Go strings are no longer than [MaxInt] bytes. *)
Definition len_ok (s : string) : Prop := (Z.of_nat (String.length s) < 2 ^ 63)%Z.

(** The value trees a caller can build and encode: every [Integer] holds a
    [big.Int] (is not the zero value [Integer{}]), every string and key has a
    length Go can represent. Keys are unique because a [Dict] is a map. *)
Inductive well_formed : Bencodable → Prop :=
  | wf_Integer z : well_formed (VInteger (mkInteger (Some z)))
  | wf_String s : len_ok s → well_formed (VString s)
  | wf_List l : Forall well_formed l → well_formed (VList l)
  | wf_Dict d :
      map_Forall (λ k v, len_ok k ∧ well_formed v) d → well_formed (VDict d).

(** The entries of [d] in the order [Dict.Bencode] writes them. *)
Definition Dict_entries (d : gmap string Bencodable) : list (string * Bencodable) :=
  omap (λ k, pair k <$> d !! k) (Dict_keys d).

(** [parse] reads the value [v] from the bytes [enc] when they are
    buffered, and leaves what follows them. *)
Definition reads_as (enc : string) (v : Bencodable) : Prop :=
  ∀ y r, ∃ f,
    parse lexerImpl_next f (bufio.mkReader (enc +:+ y) r)
    = Ret (Some v) None (bufio.mkReader y r).

(** [parse] reads [v] back from its encoding. *)
Definition reads_back (v : Bencodable) : Prop := reads_as (Bencode v) v.

(** A key and its value as [Dict.Bencode] writes them. *)
Definition Bencode_pair (kv : string * Bencodable) : string :=
  String_Bencode kv.1 +:+ Bencode kv.2.

(** The bytes of a dictionary with the pairs [kvs], in this order and with
    keys possibly repeated. *)
Definition dict_bytes (kvs : list (string * Bencodable)) : string :=
  "d" +:+ string_concat (Bencode_pair <$> kvs) +:+ "e".

(** ** A dictionary that does not fit the buffer *)

(** The pairs of a dictionary in which the key ["a"] occurs twice, the
    second time with a string of 5000 bytes as its value: its bytes are
    longer than the buffer of the [bufio.Reader]. *)
Definition long_duplicate_pairs : list (string * Bencodable) :=
  [("a", VInt 1); ("a", VString (string_repeat "x" 5000))].

(** ** The reader as a stream of bytes *)

(** The bytes a reader has not handed out yet, buffered or not. *)
Definition content (b : bufio.Reader) : string := bufio.buf b +:+ bufio.rd b.

(** ** Values without strings *)

(** Integers, lists of such values, and the empty dictionary. *)
Inductive string_free : Bencodable → Prop :=
  | sf_Integer z : string_free (VInteger (mkInteger (Some z)))
  | sf_List l : Forall string_free l → string_free (VList l)
  | sf_Dict : string_free (VDict ∅).

(** [parse] reads [v] back from a stream that starts with its encoding,
    wherever the buffer loads fall. *)
Definition reads_stream (v : Bencodable) : Prop :=
  ∀ l y, content l = Bencode v +:+ y →
    ∃ f l', parse lexerImpl_next f l = Ret (Some v) None l' ∧ content l' = y.

(** * Properties *)

(** ** Byte sequences *)

Lemma string_app_cons (c : ascii) (s t : string) :
  String c s +:+ t = String c (s +:+ t).
Proof. reflexivity. Qed.

Lemma string_app_nil_l (t : string) : "" +:+ t = t.
Proof. reflexivity. Qed.

Lemma string_length_app (s t : string) :
  String.length (s +:+ t) = (String.length s + String.length t)%nat.
Proof. induction s as [|c s IH]; [done|]. rewrite !string_app_cons. simpl. by rewrite IH. Qed.

Lemma string_app_assoc (s t u : string) : (s +:+ t) +:+ u = s +:+ t +:+ u.
Proof. induction s as [|c s IH]; [done|]. rewrite !string_app_cons. simpl. by rewrite IH. Qed.

Lemma string_app_nil_r (s : string) : s +:+ "" = s.
Proof. induction s as [|c s IH]; [done|]. rewrite !string_app_cons. simpl. by rewrite IH. Qed.

Lemma string_take_drop (n : nat) (s : string) :
  string_take n s +:+ string_drop n s = s.
Proof.
  revert s. induction n; intros [|c s]; simpl; auto.
  by rewrite string_app_cons, IHn.
Qed.

Lemma string_take_length (n : nat) (s : string) :
  String.length (string_take n s) = (n `min` String.length s)%nat.
Proof. revert s. induction n; intros [|c s]; simpl; auto. Qed.

Lemma string_drop_length (n : nat) (s : string) :
  String.length (string_drop n s) = (String.length s - n)%nat.
Proof. revert s. induction n; intros [|c s]; simpl; auto. Qed.

Lemma string_cut_Some (delim : ascii) (s line rest : string) :
  string_cut delim s = Some (line, rest) →
  s = line +:+ rest ∧ ∃ body, line = body +:+ String delim "" ∧ string_cut delim body = None.
Proof.
  revert line rest. induction s as [|c s IH]; intros line rest; simpl; [done|].
  destruct (Ascii.eqb_spec c delim) as [->|Hne].
  - intros [= <- <-]. split; [done|]. by exists "".
  - destruct (string_cut delim s) as [[line' rest']|]; [|done].
    intros [= <- <-]. destruct (IH _ _ eq_refl) as (-> & body & -> & Hb).
    split; [done|]. exists (String c body). split; [done|]. simpl.
    destruct (Ascii.eqb_spec c delim); [done|]. by rewrite Hb.
Qed.

Lemma fill_remaining b : remaining (bufio.fill b) = remaining b.
Proof.
  unfold bufio.fill, remaining. simpl.
  rewrite string_length_app, string_take_length, string_drop_length. lia.
Qed.

Lemma ReadByte_remaining b c b' :
  bufio.ReadByte b = (c, b') →
  match c with
  | Some _ => S (remaining b') = remaining b
  | None => remaining b' = remaining b
  end.
Proof.
  unfold bufio.ReadByte. intros H.
  assert (∀ b1, remaining b1 = remaining b →
    match bufio.buf b1 with
    | "" => (None, b1)
    | String c rest => (Some c, bufio.mkReader rest (bufio.rd b1))
    end = (c, b') →
    match c with
    | Some _ => S (remaining b') = remaining b
    | None => remaining b' = remaining b
    end) as Haux.
  { intros [bf r] Hr. simpl. destruct bf; intros [= <- <-]; [done|].
    rewrite <- Hr. reflexivity. }
  destruct (bufio.buf b) eqn:E; (eapply Haux; [|exact H]); [apply fill_remaining|done].
Qed.

Lemma ReadString_go_remaining fuel delim acc b s err b' :
  bufio.ReadString_go fuel delim acc b = (s, err, b') →
  (remaining b' + String.length s = remaining b + String.length acc)%nat
  ∧ (err = None → (String.length acc < String.length s)%nat).
Proof.
  revert acc b. induction fuel as [|fuel IH]; intros acc [bf r]; simpl.
  - destruct (string_cut delim bf) as [[line rest]|] eqn:Hcut.
    + intros [= <- <- <-]. apply string_cut_Some in Hcut as (-> & body & -> & _).
      unfold remaining; simpl. rewrite !string_length_app. simpl. lia.
    + destruct r; intros [= <- <- <-]; unfold remaining; simpl;
        rewrite !string_length_app; simpl; split; (lia || done).
  - destruct (string_cut delim bf) as [[line rest]|] eqn:Hcut.
    + intros [= <- <- <-]. apply string_cut_Some in Hcut as (-> & body & -> & _).
      unfold remaining; simpl. rewrite !string_length_app. simpl. lia.
    + destruct r as [|c r].
      { intros [= <- <- <-]; unfold remaining; simpl;
        rewrite !string_length_app; simpl; split; (lia || done). }
      match goal with |- context [if ?c then _ else _] => destruct c end; intros H;
        apply IH in H as [H1 H2]; rewrite fill_remaining in H1;
        unfold remaining in *; simpl in *; rewrite ?string_length_app in *;
        (split; [lia|intros Hn; specialize (H2 Hn); lia]).
Qed.

Lemma ReadString_remaining delim b s err b' :
  bufio.ReadString delim b = (s, err, b') →
  (remaining b' + String.length s = remaining b)%nat
  ∧ (err = None → (0 < String.length s)%nat).
Proof.
  unfold bufio.ReadString. intros H. apply ReadString_go_remaining in H. simpl in H.
  destruct H as [H1 H2]. split; [lia|]. intros Hn. specialize (H2 Hn). lia.
Qed.

Lemma Read_remaining n b s b' :
  bufio.Read n b = (s, b') → (remaining b' ≤ remaining b)%nat.
Proof.
  unfold bufio.Read. destruct n as [|n]; [by intros [= <- <-]|].
  generalize (S n). intros m.
  destruct b as [[|c bf] r]; cbn [bufio.buf bufio.rd].
  - destruct (bufio.defaultBufSize <=? m)%nat.
    + intros [= <- <-]. unfold remaining; cbn [bufio.buf bufio.rd].
      rewrite string_drop_length. simpl. lia.
    + pose proof (fill_remaining (bufio.mkReader "" r)) as Hf.
      destruct (bufio.fill _) as [bf1 r1]. intros [= <- <-].
      unfold remaining in *. cbn [bufio.buf bufio.rd] in *.
      rewrite string_drop_length. simpl in Hf. lia.
  - intros [= <- <-]. unfold remaining. cbn [bufio.buf bufio.rd].
    rewrite string_drop_length. lia.
Qed.

Lemma lexerImpl_next_spec l t err l' :
  lexerImpl_next l = (t, err, l') →
  (remaining l' ≤ remaining l)%nat
  ∧ (err = None → token_ok t ∧ (tok t ≠ eof → (remaining l' < remaining l)%nat)).
Proof.
  unfold lexerImpl_next.
  destruct (bufio.ReadByte l) as [[c|] l1] eqn:Hrb; apply ReadByte_remaining in Hrb.
  2:{ intros [= <- <- <-]. split; [lia|]. by intros _. }
  destruct (Ascii.eqb c "d"); [intros [= <- <- <-]; split; [lia|]; intros _; split; [done|simpl; lia]|].
  destruct (Ascii.eqb c "l"); [intros [= <- <- <-]; split; [lia|]; intros _; split; [done|simpl; lia]|].
  destruct (Ascii.eqb c "e"); [intros [= <- <- <-]; split; [lia|]; intros _; split; [done|simpl; lia]|].
  destruct (Ascii.eqb c "i").
  { unfold lexerImpl_parseInt.
    destruct (bufio.ReadString "e" l1) as [[d e] l2] eqn:Hrs.
    apply ReadString_remaining in Hrs as [H1 H2].
    destruct e; [intros [= <- <- <-]; split; [lia|done]|].
    destruct (big.SetString10 _); intros [= <- <- <-]; (split; [lia|]); [|done].
    intros _; split; [done|simpl; lia]. }
  destruct (is_digit c).
  { unfold lexerImpl_parseString.
    destruct (bufio.ReadString ":" _) as [[d e] l2] eqn:Hrs.
    apply ReadString_remaining in Hrs as [H1 H2].
    assert (remaining (bufio.UnreadByte c l1) = S (remaining l1)) as Hu by done.
    destruct e; [intros [= <- <- <-]; split; [lia|done]|].
    specialize (H2 eq_refl).
    destruct (strconv.ParseUint _); [|intros [= <- <- <-]; split; [lia|done]].
    destruct (bufio.Read _ l2) as [got l3] eqn:Hrd. apply Read_remaining in Hrd.
    intros [= <- <- <-]. split; [lia|]. intros _; split; [done|simpl; lia]. }
  intros [= <- <- <-]. split; [lia|done].
Qed.

Section unfold.
Context {L : Type} (next : L → dataToken * option error * L).

Lemma parse_S fuel l :
  parse next (S fuel) l =
    let '(t, err, l) := next l in
    match err with
    | Some e => Ret None (Some e) l
    | None =>
        match tok t with
        | dict =>
            match parseDict next fuel ∅ l with
            | Ret d err l => Ret (Some (VDict d)) err l
            | Panic m => Panic m
            | OutOfFuel => OutOfFuel
            end
        | list_ =>
            match parseList next fuel [] l with
            | Ret out err l => Ret (Some (VList out)) err l
            | Panic m => Panic m
            | OutOfFuel => OutOfFuel
            end
        | integer =>
            match data t with
            | intdata b => Ret (Some (VInteger (mkInteger (Some b)))) None l
            | _ => Panic "interface conversion"
            end
        | str =>
            match data t with
            | strdata s => Ret (Some (VString s)) None l
            | _ => Panic "interface conversion"
            end
        | end_ => Ret None (Some ErrUnexpectedEnd) l
        | eof => Ret None (Some ErrUnexpectedEOF) l
        | badtok => Panic "Should never be here!"
        end
    end.
Proof. reflexivity. Qed.

Lemma parseList_S fuel out l :
  parseList next (S fuel) out l =
    match parse next fuel l with
    | Ret n None l =>
        match n with
        | Some n => parseList next fuel (out ++ [n]) l
        | None => Panic "nil Bencodable"
        end
    | Ret _ (Some err) l =>
        if decide (err = ErrUnexpectedEnd) then Ret out None l
        else Ret [] (Some err) l
    | Panic m => Panic m
    | OutOfFuel => OutOfFuel
    end.
Proof. reflexivity. Qed.

Lemma parseDict_S fuel out l :
  parseDict next (S fuel) out l =
    match parse next fuel l with
    | Ret n err l =>
        if decide (err = Some ErrUnexpectedEnd) then Ret out None l
        else
          match parse next fuel l with
          | Ret n2 err2 l =>
              match err, err2 with
              | None, None =>
                  match n, n2 with
                  | Some (VString k), Some v => parseDict next fuel (<[k := v]> out) l
                  | Some (VString k), None => Panic "nil Bencodable"
                  | _, _ => Ret out (Some ErrBadDictKey) l
                  end
              | Some e, _ => Ret ∅ (Some e) l
              | None, Some e2 => Ret ∅ (Some e2) l
              end
          | Panic m => Panic m
          | OutOfFuel => OutOfFuel
          end
    | Panic m => Panic m
    | OutOfFuel => OutOfFuel
    end.
Proof. reflexivity. Qed.

(** [parse] never returns a nil value together with a nil error. *)
Lemma parse_value_or_error fuel l o l' :
  parse next fuel l = Ret o None l' → is_Some o.
Proof.
  destruct fuel as [|fuel]; [done|]. rewrite parse_S.
  destruct (next l) as [[t err] l1]. destruct err; [done|].
  destruct (tok t); try done.
  - destruct (parseDict next fuel ∅ l1); [|done..]. intros [= <- _ _]. by eexists.
  - destruct (data t); [done| |done]. intros [= <- _]. by eexists.
  - destruct (parseList next fuel [] l1); [|done..]. intros [= <- _ _]. by eexists.
  - destruct (data t); [done|done|]. intros [= <- _]. by eexists.
Qed.
End unfold.

Ltac arith :=
  repeat match goal with H : ∀ x : _, _ |- _ => clear H end; lia.

Lemma parse_terminates (f : nat) :
  (∀ l, (2 * remaining l + 1 ≤ f)%nat →
     ∃ o err l', parse lexerImpl_next f l = Ret o err l'
       ∧ (remaining l' ≤ remaining l)%nat
       ∧ (err = None → is_Some o ∧ (remaining l' < remaining l)%nat))
  ∧ (∀ out l, (2 * remaining l + 2 ≤ f)%nat →
     ∃ o err l', parseList lexerImpl_next f out l = Ret o err l'
       ∧ (remaining l' ≤ remaining l)%nat)
  ∧ (∀ out l, (2 * remaining l + 2 ≤ f)%nat →
     ∃ o err l', parseDict lexerImpl_next f out l = Ret o err l'
       ∧ (remaining l' ≤ remaining l)%nat).
Proof.
  induction f as [|f (IHp & IHl & IHd)]; [repeat split; intros; lia|].
  repeat split.
  - intros l Hf. rewrite parse_S.
    destruct (lexerImpl_next l) as [[t err] l1] eqn:Hn.
    apply lexerImpl_next_spec in Hn as [Hle Hok].
    destruct err as [e|]; [eexists _, _, _; split; [done|]; split; [arith|done]|].
    destruct (Hok eq_refl) as [Htok Hlt]. clear Hok. unfold token_ok in Htok.
    destruct (tok t) eqn:Ht; try done;
      try (assert (remaining l1 < remaining l)%nat as Hlt' by (apply Hlt; discriminate));
      clear Hlt.
    + eexists _, _, _. split; [done|]. split; [arith|done].
    + destruct (IHd ∅ l1) as (o & err & l' & -> & Hr); [arith|].
      eexists _, _, _. split; [done|]. split; [arith|]. intros _. split; [by eexists|arith].
    + destruct (data t); try done.
      eexists _, _, _. split; [done|]. split; [arith|]. intros _. split; [by eexists|arith].
    + destruct (IHl [] l1) as (o & err & l' & -> & Hr); [arith|].
      eexists _, _, _. split; [done|]. split; [arith|]. intros _. split; [by eexists|arith].
    + destruct (data t); try done.
      eexists _, _, _. split; [done|]. split; [arith|]. intros _. split; [by eexists|arith].
    + eexists _, _, _. split; [done|]. split; [arith|done].
  - intros out l Hf. rewrite parseList_S.
    destruct (IHp l) as (o & err & l1 & -> & Hle & Hok); [arith|].
    destruct err as [e|].
    + destruct (decide (e = ErrUnexpectedEnd)); eexists _, _, _; (split; [done|arith]).
    + destruct (Hok eq_refl) as [[v ->] Hlt]. clear Hok.
      destruct (IHl (out ++ [v])%list l1) as (o' & err' & l' & -> & Hr); [arith|].
      eexists _, _, _. split; [done|arith].
  - intros out l Hf. rewrite parseDict_S.
    destruct (IHp l) as (o & err & l1 & -> & Hle & Hok); [arith|].
    destruct (decide (err = Some ErrUnexpectedEnd));
      [eexists _, _, _; split; [done|arith]|].
    destruct (IHp l1) as (o2 & err2 & l2 & -> & Hle2 & Hok2); [arith|].
    destruct err as [e|]; [eexists _, _, _; split; [done|arith]|].
    destruct err2 as [e2|]; [eexists _, _, _; split; [done|arith]|].
    destruct (Hok eq_refl) as [[v ->] Hlt]. clear Hok.
    destruct (Hok2 eq_refl) as [[v2 ->] Hlt2]. clear Hok2.
    destruct v; try (eexists _, _, _; split; [done|arith]).
    destruct (IHd (<[s:=v2]> out) l2) as (o' & err' & l' & -> & Hr); [arith|].
    eexists _, _, _. split; [done|arith].
Qed.

Theorem Decode_returns (input : string) :
  ∃ o err, Decode input = Ret o err tt.
Proof.
  unfold Decode.
  destruct (parse_terminates (Decode_fuel input)) as [Hp _].
  destruct (Hp (newLexer input)) as (o & err & l' & -> & _).
  { unfold Decode_fuel, remaining. simpl. lia. }
  destruct err, o; eauto.
Qed.

Section fuel_sec.
Context {L : Type} (next : L → dataToken * option error * L).

(** A call that did not run out of fuel gives the same result with more. *)
Lemma fuel_mono (f : nat) :
  (∀ l f', (f ≤ f')%nat → parse next f l ≠ OutOfFuel →
       parse next f' l = parse next f l)
  ∧ (∀ out l f', (f ≤ f')%nat → parseList next f out l ≠ OutOfFuel →
       parseList next f' out l = parseList next f out l)
  ∧ (∀ out l f', (f ≤ f')%nat → parseDict next f out l ≠ OutOfFuel →
       parseDict next f' out l = parseDict next f out l).
Proof.
  induction f as [|f (IHp & IHl & IHd)].
  { repeat split; intros; simpl in *; congruence. }
  repeat split.
  - intros l [|f'] Hle Hfin; [lia|]. simpl in *.
    destruct (next l) as [[t err] l1]. destruct err; [done|].
    destruct (tok t); try done.
    + rewrite (IHd ∅ l1 f') by (lia || by destruct (parseDict next f ∅ l1)). done.
    + rewrite (IHl [] l1 f') by (lia || by destruct (parseList next f [] l1)). done.
  - intros out l [|f'] Hle Hfin; [lia|]. simpl in *.
    rewrite (IHp l f') by (lia || by destruct (parse next f l)).
    destruct (parse next f l) as [n [e|] l1| |]; try done.
    destruct n; [|done]. apply IHl; [lia|done].
  - intros out l [|f'] Hle Hfin; [lia|]. simpl in *.
    rewrite (IHp l f') by (lia || by destruct (parse next f l)).
    destruct (parse next f l) as [n err l1| |]; try done.
    destruct (decide (err = Some ErrUnexpectedEnd)); [done|].
    rewrite (IHp l1 f') by (lia || by destruct (parse next f l1)).
    destruct (parse next f l1) as [n2 err2 l2| |]; try done.
    destruct err, err2; try done.
    destruct n as [[]|]; try done. destruct n2; try done.
    apply IHd; [lia|done].
Qed.

Lemma parse_fuel_mono f f' l o err l' :
  parse next f l = Ret o err l' → (f ≤ f')%nat → parse next f' l = Ret o err l'.
Proof.
  intros H Hle. destruct (fuel_mono f) as [Hp _].
  rewrite (Hp l f' Hle); [done|]. by rewrite H.
Qed.

Lemma parse_fuel_agree f f' l o err l' :
  parse next f l = Ret o err l' → parse next f' l ≠ OutOfFuel →
  parse next f' l = Ret o err l'.
Proof.
  intros H Hfin. destruct (decide (f ≤ f')%nat) as [Hle|Hle].
  - by eapply parse_fuel_mono.
  - destruct (fuel_mono f') as [Hp _].
    rewrite <- (Hp l f) by (lia || done). done.
Qed.

End fuel_sec.

(** ** The fuel of [ReadString] *)

Lemma defaultBufSize_pos : (0 < bufio.defaultBufSize)%nat.
Proof. unfold bufio.defaultBufSize. apply Nat.lt_0_succ. Qed.

(** [ReadString] starts [ReadString_go] with enough fuel: any amount of at
    least [length rd] gives the same result. *)
Lemma ReadString_go_fuel (fuel fuel' : nat) (delim : ascii) (acc : string) (b : bufio.Reader) :
  (String.length (bufio.rd b) ≤ fuel)%nat →
  (String.length (bufio.rd b) ≤ fuel')%nat →
  bufio.ReadString_go fuel delim acc b = bufio.ReadString_go fuel' delim acc b.
Proof.
  revert fuel' acc b. induction fuel as [|fuel IH]; intros fuel' acc [bf r] H1 H2;
    destruct fuel' as [|fuel']; cbn [bufio.ReadString_go bufio.buf bufio.rd] in *;
    destruct (string_cut delim bf) as [[line rest]|]; try done;
    destruct r as [|c r]; try done; try (simpl in *; lia).
  pose proof defaultBufSize_pos as Hpos.
  destruct (bufio.defaultBufSize <=? bufio.Buffered _)%nat eqn:Hfull.
  - apply IH; unfold bufio.fill, bufio.Buffered; cbn [bufio.buf bufio.rd String.length];
      rewrite string_drop_length; simpl in *; lia.
  - apply Nat.leb_gt in Hfull.
    apply IH; unfold bufio.fill, bufio.Buffered in *; cbn [bufio.buf bufio.rd] in *;
      rewrite string_drop_length; simpl in *; lia.
Qed.

(** ** Dictionary keys are emitted in ascending order *)

Lemma Dict_keys_Permutation {A} (d : gmap string A) :
  Dict_keys d ≡ₚ (map_to_list d).*1.
Proof. apply merge_sort_Permutation. Qed.

Lemma Dict_keys_NoDup {A} (d : gmap string A) : NoDup (Dict_keys d).
Proof. rewrite Dict_keys_Permutation. apply NoDup_fst_map_to_list. Qed.

Lemma elem_of_Dict_keys {A} (d : gmap string A) k :
  k ∈ Dict_keys d ↔ is_Some (d !! k).
Proof.
  rewrite Dict_keys_Permutation, list_elem_of_fmap. split.
  - intros [[k' v] [-> Hin]]. apply elem_of_map_to_list in Hin. eauto.
  - intros [v Hv]. exists (k, v). split; [done|]. by apply elem_of_map_to_list.
Qed.

Lemma string_le_neq_lt (s t : string) :
  (s ≤ t)%string → s ≠ t → String_as_OT.lt s t.
Proof.
  unfold String.le, String.leb. intros Hle Hne.
  apply String_as_OT.cmp_lt. unfold String_as_OT.cmp.
  destruct (String.compare s t) eqn:E; [|done|done].
  apply String.compare_eq_iff in E. done.
Qed.

Lemma StronglySorted_le_lt (l : list string) :
  StronglySorted (≤)%string l → NoDup l → StronglySorted String_as_OT.lt l.
Proof.
  induction 1 as [|x l Hl IH Hx]; intros Hnd; [constructor|].
  apply NoDup_cons in Hnd as [Hnotin Hnd]. constructor; [auto|].
  rewrite Forall_forall in Hx |- *. intros y Hy.
  apply string_le_neq_lt; [auto|]. intros ->. done.
Qed.

Lemma sort_Strings_order_irrelevant (ks1 ks2 : list string) :
  ks1 ≡ₚ ks2 → sort_Strings ks1 = sort_Strings ks2.
Proof.
  intros Hp. unfold sort_Strings.
  apply (StronglySorted_unique (≤)%string);
    [apply StronglySorted_merge_sort; apply _ ..|].
  by rewrite !merge_sort_Permutation.
Qed.

Lemma Bencode_VDict (d : gmap string Bencodable) :
  Bencode (VDict d) =
  "d" +:+ string_concat
            ((λ k, String_Bencode k +:+ from_option Bencode "" (d !! k)) <$> Dict_keys d)
      +:+ "e".
Proof.
  cbn [Bencode]. do 3 f_equal. apply list_fmap_ext. intros _ k _.
  rewrite lookup_fmap. by destruct (d !! k).
Qed.

(** ** Writing the pairs of a dictionary *)

Lemma write_all_lookup kvs out k :
  write_all kvs out !! k =
  match last_value k kvs with Some v => Some v | None => out !! k end.
Proof.
  revert out. induction kvs as [|[k' v] kvs IH]; intros out; simpl; [done|].
  rewrite IH. destruct (last_value k kvs); [done|].
  destruct (decide (k' = k)) as [->|Hne].
  - by rewrite lookup_insert_eq.
  - by rewrite lookup_insert_ne.
Qed.

Section pairs_lemmas.
Context {L : Type} (next : L → dataToken * option error * L).

Lemma parseDict_read_pairs n f l kvs l1 o l2 out :
  read_pairs next f n l = Some (kvs, l1) →
  parse next f l1 = Ret o (Some ErrUnexpectedEnd) l2 →
  parseDict next (S (n + f)) out l = Ret (write_all kvs out) None l2.
Proof.
  revert l kvs out. induction n as [|n IH]; intros l kvs out Hrd Hend.
  - injection Hrd as <- <-. rewrite parseDict_S. simpl. rewrite Hend.
    by rewrite decide_True.
  - simpl in Hrd.
    destruct (parse next f l) as [[[]|] [] la| |] eqn:Hk; try done.
    destruct (parse next f la) as [[v|] [] lb| |] eqn:Hv; try done.
    destruct (read_pairs next f n lb) as [[kvs' l3]|] eqn:Hrest; [|done].
    injection Hrd as <- <-.
    rewrite parseDict_S.
    rewrite (parse_fuel_mono next f (S n + f) l _ _ _ Hk) by lia.
    rewrite decide_False by done.
    rewrite (parse_fuel_mono next f (S n + f) la _ _ _ Hv) by lia.
    change (S n + f)%nat with (S (n + f)). by rewrite (IH lb kvs').
Qed.
End pairs_lemmas.

(** ** Decimal literals *)

Lemma digit_char_spec (d : N) :
  (d < 10)%N → is_digit (digit_char d) = true ∧ digit_val (digit_char d) = d.
Proof.
  intros Hd.
  assert (d = 0 ∨ d = 1 ∨ d = 2 ∨ d = 3 ∨ d = 4 ∨ d = 5 ∨ d = 6 ∨ d = 7 ∨ d = 8 ∨ d = 9)%N
    as Hcases by lia.
  repeat destruct Hcases as [->|Hcases]; try subst d; by vm_compute.
Qed.

Lemma all_digits_app (s t : string) :
  all_digits (s +:+ t) = all_digits s && all_digits t.
Proof.
  induction s as [|c s IH]; [done|]. rewrite string_app_cons. simpl.
  by rewrite IH, andb_assoc.
Qed.

Lemma digits_value_app (a : N) (s t : string) :
  strconv.digits_value a (s +:+ t) =
  match strconv.digits_value a s with
  | Some a' => strconv.digits_value a' t
  | None => None
  end.
Proof.
  revert a. induction s as [|c s IH]; intros a; [done|].
  rewrite string_app_cons. simpl. destruct (is_digit c); [apply IH|done].
Qed.

Lemma digits_value_all_digits (a : N) (s : string) :
  all_digits s = true → is_Some (strconv.digits_value a s).
Proof.
  revert a. induction s as [|c s IH]; intros a; simpl; [by eexists|].
  intros [Hc Hs]%andb_true_iff. rewrite Hc. by apply IH.
Qed.

(** [digits_go] prepends the decimal form [D] of [n]: [D] is a non-empty
    sequence of digits which reads back as [n]. *)
Lemma digits_go_spec (fuel : nat) (n : N) (acc : string) :
  (0 < fuel)%nat → (n < 2 ^ N.of_nat fuel)%N →
  ∃ D, strconv.digits_go fuel n acc = D +:+ acc
    ∧ D ≠ "" ∧ all_digits D = true
    ∧ ∀ a, strconv.digits_value a D = Some (a * 10 ^ N.of_nat (String.length D) + n)%N.
Proof.
  revert n acc. induction fuel as [|fuel IH]; intros n acc Hfuel Hn; [lia|].
  replace (N.of_nat (S fuel)) with (N.succ (N.of_nat fuel)) in Hn by lia.
  rewrite N.pow_succ_r' in Hn.
  cbn [strconv.digits_go].
  assert (n mod 10 < 10)%N as Hmod by (apply N.mod_lt; lia).
  destruct (digit_char_spec _ Hmod) as [Hd Hv].
  destruct (N.ltb_spec n 10) as [Hlt|Hge].
  - exists (String (digit_char (n mod 10)) ""). split; [done|]. split; [done|].
    split; [simpl; by rewrite Hd|]. intros a. simpl. rewrite Hd, Hv.
    rewrite N.mod_small by done. f_equal; lia.
  - destruct (IH (n / 10)%N (String (digit_char (n mod 10)) acc)) as (D & -> & Hne & Hall & Hval).
    { destruct fuel; [simpl in Hn|]; lia. }
    { apply N.Div0.div_lt_upper_bound. lia. }
    exists (D +:+ String (digit_char (n mod 10)) "").
    split; [by rewrite string_app_assoc|].
    split; [by destruct D|].
    split; [rewrite all_digits_app, Hall; simpl; by rewrite Hd|].
    intros a. rewrite digits_value_app, Hval. simpl. rewrite Hd, Hv.
    f_equal. rewrite string_length_app. simpl.
    replace (N.of_nat (String.length D + 1)) with (N.succ (N.of_nat (String.length D))) by lia.
    rewrite N.pow_succ_r'.
    pose proof (N.div_mod n 10 ltac:(lia)). lia.
Qed.

Lemma FormatUint_spec (n : N) :
  ∃ c D, strconv.FormatUint n = String c D
    ∧ is_digit c = true ∧ all_digits D = true
    ∧ strconv.digits_value 0 (strconv.FormatUint n) = Some n.
Proof.
  unfold strconv.FormatUint.
  destruct (digits_go_spec (S (N.to_nat (N.log2 n))) n "") as (D & -> & Hne & Hall & Hval);
    [lia| |].
  { replace (N.of_nat (S (N.to_nat (N.log2 n)))) with (N.succ (N.log2 n)) by lia.
    destruct (decide (n = 0%N)) as [->|]; [done|].
    apply N.log2_spec. lia. }
  rewrite string_app_nil_r. destruct D as [|c D]; [done|].
  simpl in Hall. apply andb_true_iff in Hall as [Hc HD].
  exists c, D. repeat split; done.
Qed.

Lemma digits_value_ge (a v : N) (s : string) :
  strconv.digits_value a s = Some v → (a ≤ v)%N.
Proof.
  revert a. induction s as [|c s IH]; intros a; simpl; [intros [= <-]; lia|].
  destruct (is_digit c); [|done]. intros H%IH. lia.
Qed.

Lemma ParseUint_go_digits (s0 s : string) (a v : N) :
  strconv.digits_value a s = Some v → (v < 2 ^ 64)%N →
  strconv.ParseUint_go s0 a s = inl v.
Proof.
  revert a. induction s as [|c s IH]; intros a; simpl; [by intros [= <-]|].
  destruct (is_digit c); [|done]. intros Hv Hlt.
  pose proof (digits_value_ge _ _ _ Hv) as Hge.
  change (2 ^ 64)%N with 18446744073709551616%N in Hlt.
  destruct (N.leb_spec strconv.ParseUint_cutoff a) as [Hc|Hc].
  { change strconv.ParseUint_cutoff with 1844674407370955162%N in Hc. lia. }
  destruct (N.ltb_spec strconv.ParseUint_maxVal (a * 10 + digit_val c)) as [Hm|Hm].
  { change strconv.ParseUint_maxVal with 18446744073709551615%N in Hm. lia. }
  by apply IH.
Qed.

Lemma ParseUint_FormatUint (n : N) :
  (n < 2 ^ 64)%N → strconv.ParseUint (strconv.FormatUint n) = inl n.
Proof.
  intros Hn. destruct (FormatUint_spec n) as (c & D & Heq & _ & _ & Hval).
  unfold strconv.ParseUint. rewrite Heq in Hval |- *.
  by apply ParseUint_go_digits.
Qed.

Lemma ParseUint_error (s : string) (e : error) :
  strconv.ParseUint s = inr e → e = NumError_Syntax s ∨ e = NumError_Range s.
Proof.
  unfold strconv.ParseUint. destruct s as [|c0 s0]; [intros [= <-]; auto|].
  generalize (String c0 s0) at 1 3 4 as orig. generalize 0%N as a.
  generalize (String c0 s0) as s. clear.
  induction s as [|c s IH]; intros a orig; simpl; [done|].
  destruct (is_digit c); [|intros [= <-]; auto].
  destruct (strconv.ParseUint_cutoff <=? a)%N; [intros [= <-]; auto|].
  destruct (strconv.ParseUint_maxVal <? _)%N; [intros [= <-]; auto|].
  apply IH.
Qed.

Lemma SetString10_unsigned (c : ascii) (D : string) :
  is_digit c = true →
  big.SetString10 (String c D) =
  match strconv.digits_value 0 (String c D) with
  | Some n => Some (Z.of_N n)
  | None => None
  end.
Proof.
  intros Hc.
  destruct c as [[] [] [] [] [] [] [] []]; try (by vm_compute in Hc); reflexivity.
Qed.

Lemma SetString10_Text10 (z : Z) : big.SetString10 (big.Text10 (Some z)) = Some z.
Proof.
  unfold big.Text10. destruct z as [|p|p].
  - done.
  - destruct (FormatUint_spec (Z.to_N (Z.pos p))) as (c & D & Heq & Hc & _ & Hval).
    rewrite Heq in Hval |- *. rewrite SetString10_unsigned, Hval by done.
    f_equal; lia.
  - destruct (FormatUint_spec (N.pos p)) as (c & D & Heq & Hc & _ & Hval).
    change ("-" +:+ strconv.FormatUint (N.pos p))
      with (String "-" (strconv.FormatUint (N.pos p))).
    unfold big.SetString10. rewrite Hval, Heq. done.
Qed.

(** ** Lexing an encoding that sits in the buffer *)

Lemma string_take_app (s y : string) : string_take (String.length s) (s +:+ y) = s.
Proof. induction s as [|c s IH]; [by destruct y|]. rewrite string_app_cons. simpl. by rewrite IH. Qed.

Lemma string_drop_app (s y : string) : string_drop (String.length s) (s +:+ y) = y.
Proof. induction s as [|c s IH]; [done|]. rewrite string_app_cons. simpl. by rewrite IH. Qed.

Lemma string_take_app_le (n : nat) (s y : string) :
  (String.length s ≤ n)%nat →
  string_take n (s +:+ y) = s +:+ string_take (n - String.length s) y.
Proof.
  revert n. induction s as [|c s IH]; intros n Hn.
  - rewrite string_app_nil_l. simpl. by rewrite Nat.sub_0_r.
  - destruct n as [|n]; [simpl in Hn; lia|]. rewrite !string_app_cons. simpl.
    rewrite IH by (simpl in Hn; lia). done.
Qed.

Lemma string_drop_app_le (n : nat) (s y : string) :
  (String.length s ≤ n)%nat →
  string_drop n (s +:+ y) = string_drop (n - String.length s) y.
Proof.
  revert n. induction s as [|c s IH]; intros n Hn.
  - rewrite string_app_nil_l. simpl. by rewrite Nat.sub_0_r.
  - destruct n as [|n]; [simpl in Hn; lia|]. rewrite !string_app_cons. simpl.
    rewrite IH by (simpl in Hn; lia). done.
Qed.

Lemma string_init_snoc (s : string) (c : ascii) : string_init (s +:+ String c "") = s.
Proof.
  induction s as [|c' s IH]; [done|]. rewrite string_app_cons.
  cbn [string_init]. rewrite IH. by destruct s.
Qed.

Lemma string_cut_free (delim : ascii) (s y : string) :
  free_of delim s = true →
  string_cut delim (s +:+ String delim y) = Some (s +:+ String delim "", y).
Proof.
  induction s as [|c s IH]; intros Hs.
  - rewrite !string_app_nil_l. simpl. by rewrite Ascii.eqb_refl.
  - rewrite !string_app_cons. simpl in *.
    apply andb_true_iff in Hs as [Hc Hs]. apply negb_true_iff in Hc.
    by rewrite Hc, IH.
Qed.

Lemma all_digits_free (delim : ascii) (s : string) :
  is_digit delim = false → all_digits s = true → free_of delim s = true.
Proof.
  intros Hd. induction s as [|c s IH]; simpl; [done|].
  intros [Hc Hs]%andb_true_iff. rewrite IH by done.
  destruct (Ascii.eqb_spec c delim) as [->|]; [congruence|done].
Qed.

Lemma ReadString_buffered (delim : ascii) (s y r : string) :
  free_of delim s = true →
  bufio.ReadString delim (bufio.mkReader (s +:+ String delim y) r)
  = (s +:+ String delim "", None, bufio.mkReader y r).
Proof.
  intros Hs. unfold bufio.ReadString.
  destruct (String.length _); simpl; by rewrite string_cut_free.
Qed.

Lemma Read_buffered (s y r : string) :
  bufio.Read (String.length s) (bufio.mkReader (s +:+ y) r) = (s, bufio.mkReader y r).
Proof.
  destruct s as [|c s]; [done|].
  change (bufio.Read _ _) with
    (string_take (String.length (String c s)) (String c s +:+ y),
     bufio.mkReader (string_drop (String.length (String c s)) (String c s +:+ y)) r).
  by rewrite string_take_app, string_drop_app.
Qed.

Lemma Text10_free_e (z : Z) : free_of "e" (big.Text10 (Some z)) = true.
Proof.
  assert (∀ n, free_of "e" (strconv.FormatUint n) = true) as Hn.
  { intros n. destruct (FormatUint_spec n) as (c & D & Heq & Hc & HD & _).
    apply all_digits_free; [done|]. rewrite Heq. simpl. by rewrite Hc. }
  destruct z; simpl; [done|apply Hn|].
  change ("-" +:+ ?s) with (String "-" s). simpl. apply Hn.
Qed.

Lemma next_Integer (z : Z) (y r : string) :
  lexerImpl_next (bufio.mkReader (Integer_Bencode (mkInteger (Some z)) +:+ y) r)
  = (mkToken integer (intdata z), None, bufio.mkReader y r).
Proof.
  unfold Integer_Bencode. cbn [Integer_i].
  rewrite !string_app_assoc.
  change ("i" +:+ ?s) with (String "i" s).
  unfold lexerImpl_next, bufio.ReadByte. cbn [bufio.buf bufio.rd].
  change (Ascii.eqb "i" "d") with false. change (Ascii.eqb "i" "l") with false.
  change (Ascii.eqb "i" "e") with false. change (Ascii.eqb "i" "i") with true.
  cbv iota. unfold lexerImpl_parseInt.
  change ("e" +:+ y) with (String "e" y).
  rewrite ReadString_buffered by apply Text10_free_e.
  by rewrite string_init_snoc, SetString10_Text10.
Qed.

Lemma next_String (s y r : string) :
  len_ok s →
  lexerImpl_next (bufio.mkReader (String_Bencode s +:+ y) r)
  = (mkToken str (strdata s), None, bufio.mkReader y r).
Proof.
  intros Hlen. unfold String_Bencode.
  destruct (FormatUint_spec (N.of_nat (String.length s))) as (c & D & Heq & Hc & HD & _).
  pose proof (ParseUint_FormatUint (N.of_nat (String.length s))) as Hparse.
  rewrite Heq in *. rewrite !string_app_assoc.
  change (":" +:+ ?t) with (String ":" t). rewrite string_app_cons.
  unfold lexerImpl_next, bufio.ReadByte. cbn [bufio.buf bufio.rd].
  assert (Ascii.eqb c "d" = false ∧ Ascii.eqb c "l" = false
          ∧ Ascii.eqb c "e" = false ∧ Ascii.eqb c "i" = false) as (-> & -> & -> & ->).
  { repeat split; apply Ascii.eqb_neq; intros ->; by vm_compute in Hc. }
  rewrite Hc. unfold bufio.UnreadByte, lexerImpl_parseString. cbn [bufio.buf bufio.rd].
  rewrite <- string_app_cons.
  rewrite ReadString_buffered.
  2:{ apply all_digits_free; [done|]. simpl. by rewrite Hc. }
  rewrite string_init_snoc, Hparse.
  2:{ unfold len_ok in Hlen. lia. }
  rewrite Nat2N.id, Read_buffered, Nat.sub_diag. simpl.
  by rewrite string_app_nil_r.
Qed.

Lemma next_byte (c : ascii) (t : token) (y r : string) :
  (c = "d"%char ∧ t = dict) ∨ (c = "l"%char ∧ t = list_) ∨ (c = "e"%char ∧ t = end_) →
  lexerImpl_next (bufio.mkReader (String c y) r) = (mkToken t nodata, None, bufio.mkReader y r).
Proof. intros [[-> ->]|[[-> ->]|[-> ->]]]; reflexivity. Qed.

Lemma well_formed_induction (P : Bencodable → Prop) :
  (∀ z, P (VInteger (mkInteger (Some z)))) →
  (∀ s, len_ok s → P (VString s)) →
  (∀ l, Forall P l → P (VList l)) →
  (∀ d, map_Forall (λ k v, len_ok k ∧ P v) d → P (VDict d)) →
  ∀ v, well_formed v → P v.
Proof.
  intros HI HS HL HD. fix IH 2. intros v [z|s Hs|l Hl|d Hd].
  - apply HI.
  - by apply HS.
  - apply HL. revert l Hl. fix IHl 2. intros l [|x l' Hx Hl'].
    + constructor.
    + constructor; [apply IH, Hx|apply IHl, Hl'].
  - apply HD. intros k x Hkx. destruct (Hd k x Hkx) as [Hlen Hwf].
    split; [exact Hlen|apply IH, Hwf].
Qed.

Section fuel_corollaries.
Context {L : Type} (next : L → dataToken * option error * L).

Lemma parseList_fuel_mono f f' out l o err l' :
  parseList next f out l = Ret o err l' → (f ≤ f')%nat →
  parseList next f' out l = Ret o err l'.
Proof.
  intros H Hle. destruct (fuel_mono next f) as (_ & Hl & _).
  rewrite (Hl out l f' Hle); [done|]. by rewrite H.
Qed.

Lemma parseDict_fuel_mono f f' out l o err l' :
  parseDict next f out l = Ret o err l' → (f ≤ f')%nat →
  parseDict next f' out l = Ret o err l'.
Proof.
  intros H Hle. destruct (fuel_mono next f) as (_ & _ & Hd).
  rewrite (Hd out l f' Hle); [done|]. by rewrite H.
Qed.
End fuel_corollaries.

(** ** Decoding an encoding that sits in the buffer *)

Lemma string_concat_cons (x : string) (xs : list string) (rest : string) :
  string_concat (x :: xs) +:+ rest = x +:+ string_concat xs +:+ rest.
Proof. unfold string_concat. simpl. by rewrite string_app_assoc. Qed.

Lemma parse_end (y r : string) :
  parse lexerImpl_next 1 (bufio.mkReader (String "e" y) r)
  = Ret None (Some ErrUnexpectedEnd) (bufio.mkReader y r).
Proof. rewrite parse_S, (next_byte "e" end_) by auto. done. Qed.

Lemma parseList_elems (l : list Bencodable) :
  Forall reads_back l →
  ∀ out y r, ∃ f,
    parseList lexerImpl_next f out
      (bufio.mkReader (string_concat (Bencode <$> l) +:+ String "e" y) r)
    = Ret (out ++ l)%list None (bufio.mkReader y r).
Proof.
  induction 1 as [|v l Hv _ IH]; intros out y r.
  - change (string_concat (Bencode <$> []) +:+ String "e" y) with (String "e" y).
    exists 2%nat. rewrite parseList_S, parse_end. rewrite decide_True by done.
    by rewrite app_nil_r.
  - rewrite fmap_cons, string_concat_cons.
    destruct (Hv (string_concat (Bencode <$> l) +:+ String "e" y) r) as [f1 Hf1].
    destruct (IH (out ++ [v])%list y r) as [f2 Hf2].
    exists (S (f1 `max` f2)). rewrite parseList_S.
    rewrite (parse_fuel_mono _ _ _ _ _ _ _ Hf1) by lia.
    rewrite (parseList_fuel_mono _ _ _ _ _ _ _ _ Hf2) by lia.
    by rewrite <- app_assoc.
Qed.

Lemma parseDict_entries (kvs : list (string * Bencodable)) :
  Forall (λ kv, len_ok kv.1 ∧ reads_back kv.2) kvs →
  ∀ out y r, ∃ f,
    parseDict lexerImpl_next f out
      (bufio.mkReader (string_concat (Bencode_pair <$> kvs) +:+ String "e" y) r)
    = Ret (write_all kvs out) None (bufio.mkReader y r).
Proof.
  induction 1 as [|[k v] kvs [Hk Hv] _ IH]; intros out y r.
  - change (string_concat (Bencode_pair <$> []) +:+ String "e" y) with (String "e" y).
    exists 2%nat. rewrite parseDict_S, parse_end. by rewrite decide_True.
  - rewrite fmap_cons, string_concat_cons. unfold Bencode_pair at 1.
    cbn [fst snd] in *. rewrite string_app_assoc.
    destruct (Hv (string_concat (Bencode_pair <$> kvs) +:+ String "e" y) r) as [f1 Hf1].
    destruct (IH (<[k:=v]> out) y r) as [f2 Hf2].
    exists (S (S (f1 `max` f2))). rewrite parseDict_S.
    rewrite parse_S, next_String by done. cbn [tok data].
    rewrite decide_False by done.
    rewrite (parse_fuel_mono _ _ _ _ _ _ _ Hf1) by lia.
    rewrite (parseDict_fuel_mono _ _ _ _ _ _ _ _ Hf2) by lia.
    done.
Qed.

Lemma Bencode_pair_entries (d : gmap string Bencodable) (ks : list string) :
  Forall (λ k, is_Some (d !! k)) ks →
  Bencode_pair <$> omap (λ k, pair k <$> d !! k) ks
  = (λ k, String_Bencode k +:+ from_option Bencode "" (d !! k)) <$> ks.
Proof.
  induction 1 as [|k ks [v Hv] _ IH]; [done|].
  cbn [omap list_omap]. rewrite Hv. cbn [fmap option_fmap option_map].
  rewrite !fmap_cons. rewrite Hv. f_equal. exact IH.
Qed.

Lemma Bencode_VDict_entries (d : gmap string Bencodable) :
  Bencode (VDict d) = "d" +:+ string_concat (Bencode_pair <$> Dict_entries d) +:+ "e".
Proof.
  rewrite Bencode_VDict. unfold Dict_entries. rewrite Bencode_pair_entries; [done|].
  apply Forall_forall. intros k Hk. by apply elem_of_Dict_keys.
Qed.

Lemma last_value_entries (d : gmap string Bencodable) (ks : list string) (k : string) :
  NoDup ks →
  last_value k (omap (λ k, pair k <$> d !! k) ks)
  = if decide (k ∈ ks) then d !! k else None.
Proof.
  induction 1 as [|x ks Hx Hnd IH].
  { cbn [omap list_omap last_value].
    destruct (decide (k ∈ [])) as [Hin|]; [|done]. by apply not_elem_of_nil in Hin. }
  cbn [omap list_omap]. destruct (d !! x) as [v|] eqn:Hdx; cbn [fmap option_fmap option_map].
  - cbn [last_value]. rewrite IH. destruct (decide (x = k)) as [->|Hne].
    + rewrite (decide_False (P := k ∈ ks)) by done.
      rewrite decide_True by apply list_elem_of_here. done.
    + destruct (decide (k ∈ ks)) as [Hin|Hnin].
      * rewrite decide_True by (by apply list_elem_of_further). by destruct (d !! k).
      * rewrite decide_False; [done|]. by intros [->|]%elem_of_cons.
  - rewrite IH. destruct (decide (k ∈ ks)) as [Hin|Hnin].
    + by rewrite decide_True by (by apply list_elem_of_further).
    + destruct (decide (k = x)) as [->|Hne].
      * by rewrite decide_True by apply list_elem_of_here.
      * rewrite decide_False; [done|]. by intros [->|]%elem_of_cons.
Qed.

Lemma write_all_entries (d : gmap string Bencodable) : write_all (Dict_entries d) ∅ = d.
Proof.
  apply map_eq. intros k. unfold Dict_entries.
  rewrite write_all_lookup, last_value_entries by apply Dict_keys_NoDup.
  rewrite lookup_empty. destruct (decide (k ∈ Dict_keys d)) as [Hin|Hnin].
  - by destruct (d !! k).
  - destruct (d !! k) eqn:Hk; [|done]. exfalso. apply Hnin, elem_of_Dict_keys. by eexists.
Qed.

Lemma Forall_Dict_entries (P : string → Bencodable → Prop) (d : gmap string Bencodable) :
  map_Forall P d → Forall (λ kv, P kv.1 kv.2) (Dict_entries d).
Proof.
  intros Hd. apply Forall_forall. intros [k v] Hin.
  apply list_elem_of_omap in Hin as (k' & _ & Hk').
  destruct (d !! k') as [v'|] eqn:E; [|done]. injection Hk' as -> ->.
  by apply Hd.
Qed.

(** A dictionary in the input is read pair by pair, each pair written into
    the map, whatever the order of the keys and however often one occurs. *)
Lemma reads_as_dict (kvs : list (string * Bencodable)) :
  Forall (λ kv, len_ok kv.1 ∧ reads_back kv.2) kvs →
  reads_as (dict_bytes kvs) (VDict (write_all kvs ∅)).
Proof.
  intros Hkvs y r. destruct (parseDict_entries kvs Hkvs ∅ y r) as [f Hf].
  exists (S f). unfold dict_bytes. rewrite !string_app_assoc.
  change ("d" +:+ ?s) with (String "d" s). change ("e" +:+ y) with (String "e" y).
  rewrite parse_S, (next_byte "d" dict) by auto. cbn [tok].
  by rewrite Hf.
Qed.

Lemma parse_Bencode (v : Bencodable) : well_formed v → reads_back v.
Proof.
  revert v. apply well_formed_induction.
  - intros z y r. exists 1%nat. cbn [Bencode]. by rewrite parse_S, next_Integer.
  - intros s Hs y r. exists 1%nat. cbn [Bencode]. by rewrite parse_S, next_String.
  - intros l Hl y r. destruct (parseList_elems l Hl [] y r) as [f Hf].
    exists (S f). cbn [Bencode]. rewrite !string_app_assoc.
    change ("l" +:+ ?s) with (String "l" s). change ("e" +:+ y) with (String "e" y).
    rewrite parse_S, (next_byte "l" list_) by auto. cbn [tok]. by rewrite Hf.
  - intros d Hd. unfold reads_back.
    rewrite Bencode_VDict_entries.
    replace (VDict d) with (VDict (write_all (Dict_entries d) ∅))
      by (by rewrite write_all_entries).
    apply reads_as_dict.
    exact (Forall_Dict_entries (λ k v, len_ok k ∧ reads_back v) d Hd).
Qed.

(** ** From the first buffer load to [Decode] *)

Lemma Bencode_nonempty (v : Bencodable) : Bencode v ≠ "".
Proof.
  destruct v as [i|s|l|d]; cbn [Bencode]; try done.
  unfold String_Bencode.
  destruct (FormatUint_spec (N.of_nat (String.length s))) as (c & D & -> & _).
  done.
Qed.

Lemma fill_NewReader (enc extra : string) :
  (String.length enc ≤ bufio.defaultBufSize)%nat →
  bufio.fill (bufio.NewReader (enc +:+ extra))
  = bufio.mkReader
      (enc +:+ string_take (bufio.defaultBufSize - String.length enc) extra)
      (string_drop (bufio.defaultBufSize - String.length enc) extra).
Proof.
  intros Hle. unfold bufio.fill, bufio.NewReader, bufio.Buffered.
  cbn [bufio.buf bufio.rd String.length].
  rewrite Nat.sub_0_r, string_app_nil_l.
  by rewrite string_take_app_le, string_drop_app_le.
Qed.

Lemma next_NewReader (input : string) :
  bufio.buf (bufio.fill (bufio.NewReader input)) ≠ "" →
  lexerImpl_next (bufio.NewReader input)
  = lexerImpl_next (bufio.fill (bufio.NewReader input)).
Proof.
  intros Hne.
  assert (bufio.ReadByte (bufio.NewReader input)
          = bufio.ReadByte (bufio.fill (bufio.NewReader input))) as Heq.
  { set (b := bufio.fill (bufio.NewReader input)) in *.
    unfold bufio.ReadByte. change (bufio.buf (bufio.NewReader input)) with "".
    cbv iota zeta. fold b.
    destruct (bufio.buf b) as [|c rest] eqn:E; [done|]. by rewrite E. }
  unfold lexerImpl_next. by rewrite Heq.
Qed.

(** Bytes that fit the buffer and are read as [v] decode to [v], whatever
    follows them. *)
Lemma Decode_buffered (enc : string) (v : Bencodable) (extra : string) :
  reads_as enc v → enc ≠ "" →
  (String.length enc ≤ bufio.defaultBufSize)%nat →
  DecodeString (enc +:+ extra) = Ret (Some v) None tt.
Proof.
  intros Hread Hne Hlen. unfold DecodeString, Decode.
  set (input := enc +:+ extra).
  destruct (parse_terminates (Decode_fuel input)) as [Hp _].
  destruct (Hp (newLexer input)) as (o' & err' & l' & Hdec & _).
  { unfold Decode_fuel, remaining. simpl. lia. }
  pose proof (fill_NewReader enc extra Hlen) as Hfill. fold input in Hfill.
  destruct (Hread (string_take (bufio.defaultBufSize - String.length enc) extra)
                  (string_drop (bufio.defaultBufSize - String.length enc) extra))
    as [f Hf].
  rewrite <- Hfill in Hf.
  assert (parse lexerImpl_next f (newLexer input)
          = Ret (Some v) None
              (bufio.mkReader
                 (string_take (bufio.defaultBufSize - String.length enc) extra)
                 (string_drop (bufio.defaultBufSize - String.length enc) extra)))
    as Hf'.
  { destruct f as [|f]; [done|]. rewrite parse_S in Hf |- *.
    unfold newLexer. rewrite next_NewReader; [done|].
    rewrite Hfill. cbn [bufio.buf]. by destruct enc. }
  rewrite (parse_fuel_agree _ _ _ _ _ _ _ Hf'); [done|]. by rewrite Hdec.
Qed.

(** Round trip within the buffer: a well-formed value whose encoding is not
    longer than the buffer of the [bufio.Reader] decodes to itself, whatever
    follows the encoding in the input. *)
Theorem Decode_Bencode_buffered (v : Bencodable) (extra : string) :
  well_formed v →
  (String.length (Bencode v) ≤ bufio.defaultBufSize)%nat →
  DecodeString (Bencode v +:+ extra) = Ret (Some v) None tt.
Proof.
  intros Hwf Hlen. apply Decode_buffered; [|apply Bencode_nonempty|done].
  by apply parse_Bencode.
Qed.

(** ** The first token of an input *)

Lemma ReadByte_NewReader (c : ascii) (rest : string) :
  bufio.ReadByte (bufio.NewReader (String c rest))
  = (Some c, bufio.mkReader (string_take (pred bufio.defaultBufSize) rest)
                            (string_drop (pred bufio.defaultBufSize) rest)).
Proof. reflexivity. Qed.

Lemma parse_first_token (c : ascii) (t : token) (rest : string) (f : nat) :
  (c = "d"%char ∧ t = dict) ∨ (c = "l"%char ∧ t = list_) ∨ (c = "e"%char ∧ t = end_) →
  ∃ l, lexerImpl_next (newLexer (String c rest)) = (mkToken t nodata, None, l).
Proof.
  intros H. eexists. unfold lexerImpl_next, newLexer. rewrite ReadByte_NewReader.
  destruct H as [[-> ->]|[[-> ->]|[-> ->]]]; reflexivity.
Qed.

(** An end marker where the top-level value should start, and the empty
    input, are reported. *)
Lemma Decode_top_level_termination :
  (∀ rest, DecodeString (String "e" rest) = Ret None (Some ErrUnexpectedEnd) tt)
  ∧ DecodeString "" = Ret None (Some ErrUnexpectedEOF) tt.
Proof.
  split; [|reflexivity]. intros rest. unfold DecodeString, Decode, Decode_fuel.
  rewrite Nat.add_1_r, parse_S.
  destruct (parse_first_token "e" end_ rest 0) as [l ->]; auto.
Qed.

(** [Decode] reports no error at all for an input that opens a list or a
    dictionary: whatever [parseList] or [parseDict] return is a non-nil
    interface value. *)
Lemma Decode_container_no_error (c : ascii) (rest : string) :
  c = "d"%char ∨ c = "l"%char →
  ∃ v, DecodeString (String c rest) = Ret (Some v) None tt.
Proof.
  intros Hc. unfold DecodeString, Decode.
  set (input := String c rest).
  destruct (parse_terminates (Decode_fuel input)) as [Hp _].
  destruct (Hp (newLexer input)) as (o & err & l' & Hdec & _).
  { unfold Decode_fuel, remaining. simpl. lia. }
  rewrite Hdec. unfold Decode_fuel in Hdec. rewrite Nat.add_1_r, parse_S in Hdec.
  destruct Hc as [->| ->].
  - destruct (parse_first_token "d" dict rest 0) as [l Hl]; [auto|].
    unfold input in Hdec. rewrite Hl in Hdec. cbn [tok] in Hdec.
    destruct (parseDict _ _ _ _) as [d e l1| |]; try done.
    injection Hdec as <- <- <-. destruct e; by eexists.
  - destruct (parse_first_token "l" list_ rest 0) as [l Hl]; [auto|].
    unfold input in Hdec. rewrite Hl in Hdec. cbn [tok] in Hdec.
    destruct (parseList _ _ _ _) as [d e l1| |]; try done.
    injection Hdec as <- <- <-. destruct e; by eexists.
Qed.

(** ** Which errors the lexer makes *)

Lemma ReadString_go_error fuel delim acc b s e b' :
  bufio.ReadString_go fuel delim acc b = (s, Some e, b') → e = io_EOF.
Proof.
  revert acc b. induction fuel as [|fuel IH]; intros acc b; cbn [bufio.ReadString_go].
  - destruct (string_cut delim (bufio.buf b)) as [[line rest]|]; [done|].
    destruct (bufio.rd b); by intros [= <- <- <-].
  - destruct (string_cut delim (bufio.buf b)) as [[line rest]|]; [done|].
    destruct (bufio.rd b); [by intros [= <- <- <-]|].
    match goal with |- context [if ?c then _ else _] => destruct c end; apply IH.
Qed.

Lemma lexerImpl_next_error l t e l' :
  lexerImpl_next l = (t, Some e, l') →
  e ≠ ErrBadDictKey ∧ e ≠ ErrUnexpectedEnd ∧ e ≠ ErrUnexpectedEOF.
Proof.
  unfold lexerImpl_next. destruct (bufio.ReadByte l) as [[c|] l1]; [|done].
  repeat (match goal with |- context [if ?c then _ else _] => destruct c end; try done).
  - unfold lexerImpl_parseInt.
    destruct (bufio.ReadString "e" l1) as [[d err] l2] eqn:Hrs.
    destruct err as [e'|].
    + apply ReadString_go_error in Hrs as ->. by intros [= <- <- <-].
    + destruct (big.SetString10 _); [done|]. by intros [= <- <- <-].
  - unfold lexerImpl_parseString.
    destruct (bufio.ReadString ":" _) as [[d err] l2] eqn:Hrs.
    destruct err as [e'|].
    + apply ReadString_go_error in Hrs as ->. by intros [= <- <- <-].
    + destruct (strconv.ParseUint (string_init d)) as [sz|e'] eqn:Hp.
      * by destruct (bufio.Read _ _).
      * apply ParseUint_error in Hp. intros [= <- <- <-]. by destruct Hp as [-> | ->].
  - by intros [= <- <- <-].
Qed.

(** [Decode] never hands [ErrBadDictKey] to its caller. *)
Lemma Decode_never_ErrBadDictKey (input : string) (o : option Bencodable) :
  DecodeString input ≠ Ret o (Some ErrBadDictKey) tt.
Proof.
  unfold DecodeString, Decode, Decode_fuel. rewrite Nat.add_1_r, parse_S.
  destruct (lexerImpl_next (newLexer input)) as [[t err] l] eqn:Hn.
  destruct err as [e|].
  { apply lexerImpl_next_error in Hn as (? & _). congruence. }
  destruct (tok t); try done.
  - destruct (parseDict _ _ _ _) as [d [] l1| |]; done.
  - destruct (data t); done.
  - destruct (parseList _ _ _ _) as [d [] l1| |]; done.
  - destruct (data t); done.
Qed.

(** ** A length prefix is never checked against the bytes that follow *)

Lemma Read_length n b s b' :
  bufio.Read n b = (s, b') → (String.length s ≤ n)%nat.
Proof.
  unfold bufio.Read. destruct n as [|n]; [by intros [= <- <-]|].
  generalize (S n). intros m.
  destruct (bufio.buf b); [destruct (bufio.defaultBufSize <=? m)%nat|];
    intros [= <- <-]; rewrite string_take_length; lia.
Qed.

Lemma string_repeat_length (c : ascii) (n : nat) : String.length (string_repeat c n) = n.
Proof. induction n as [|n IH]; simpl; [done|by rewrite IH]. Qed.

(** Once the length prefix [sz] is read, [parseString] returns a string
    token of [sz] bytes and a nil error, whatever is left of the input. *)
Lemma parseString_no_short_read_error l le l1 sz :
  bufio.ReadString ":" l = (le, None, l1) →
  strconv.ParseUint (string_init le) = inl sz →
  ∃ out l2, lexerImpl_parseString l = (mkToken str (strdata out), None, l2)
    ∧ String.length out = N.to_nat sz.
Proof.
  intros Hrs Hsz. unfold lexerImpl_parseString. rewrite Hrs, Hsz.
  destruct (bufio.Read (N.to_nat sz) l1) as [got l2] eqn:Hrd.
  apply Read_length in Hrd. eexists _, _. split; [done|].
  rewrite string_length_app, string_repeat_length. lia.
Qed.

(** ** bencode_test.go *)

(** The assertions of [TestDecode]. *)
Lemma TestDecode :
  DecodeString "i1337e" = Ret (Some (VInt 1337)) None tt
  ∧ DecodeString "4:butt" = Ret (Some (VString "butt")) None tt
  ∧ DecodeString "l4:butti4000ee" = Ret (Some (VList [VString "butt"; VInt 4000])) None tt
  ∧ DecodeString "d4:butti4000ee" = Ret (Some (VDict {[ "butt" := VInt 4000 ]})) None tt.
Proof. vm_compute. auto. Qed.

(** The assertions of [TestEncode]: decoding, then encoding, gives the input
    again. *)
Lemma TestEncode :
  Forall (λ d, ∃ v, DecodeString d = Ret (Some v) None tt ∧ Bencode v = d)
    ["d4:butti4000e5:butt2i700ee"; "l4:butti4000eledeledee"; "llllldeeeeee"].
Proof. repeat constructor; eexists; vm_compute; split; reflexivity. Qed.

(** * The claims *)

(** C1 (round trip): the claim is that for every well-formed value [Decode]
    of its encoding is the value again. [Decode_Bencode_buffered] shows this
    for every value whose encoding fits the buffer of the [bufio.Reader]; it
    is not so beyond that. Of the 5000-byte string [long_string] only the
    4091 bytes buffered behind the length prefix ["5000:"] are copied by
    [Read]; the other 909 bytes of the decoded string are the zero bytes
    [make] put there, and no error is returned. *)
Theorem C1_roundtrip_fails_on_long_string :
  well_formed long_string
  ∧ DecodeString (Bencode long_string)
    = Ret (Some (VString (string_repeat "a" 4091 +:+ string_repeat Ascii.zero 909)))
          None tt
  ∧ DecodeString (Bencode long_string) ≠ Ret (Some long_string) None tt.
Proof.
  split; [constructor; by vm_compute|].
  assert (DecodeString (Bencode long_string)
          = Ret (Some (VString (string_repeat "a" 4091 +:+ string_repeat Ascii.zero 909)))
                None tt) as Heval by (vm_compute; reflexivity).
  split; [exact Heval|]. rewrite Heval. intros Heq.
  apply (f_equal (λ r : outcome (option Bencodable) unit,
                    match r with
                    | Ret (Some (VString s)) _ _ => String.get 4091 s
                    | _ => None
                    end)) in Heq.
  vm_compute in Heq. discriminate Heq.
Qed.

(** C2 (bad dictionary key): the claim is that a key that is not a string
    makes decoding fail with the bad-dict-key error and no partial result.
    [parseDict] does return [ErrBadDictKey], together with the dictionary
    built so far; [Decode] then finds a non-nil value and returns it with a
    nil error. For ["d1:ai1ei2ei3ee"] the caller gets the partial dictionary
    [{"a": 1}] and no error, and [Decode] returns [ErrBadDictKey] for no
    input whatsoever. *)
Theorem C2_bad_dict_key_is_not_reported :
  (∃ l, parse lexerImpl_next (Decode_fuel "d1:ai1ei2ei3ee") (newLexer "d1:ai1ei2ei3ee")
        = Ret (Some (VDict {[ "a" := VInt 1 ]})) (Some ErrBadDictKey) l)
  ∧ DecodeString "d1:ai1ei2ei3ee" = Ret (Some (VDict {[ "a" := VInt 1 ]})) None tt
  ∧ DecodeString "di1ei2ee" = Ret (Some (VDict ∅)) None tt
  ∧ ∀ input o, DecodeString input ≠ Ret o (Some ErrBadDictKey) tt.
Proof.
  split; [eexists; vm_compute; reflexivity|].
  split; [vm_compute; reflexivity|].
  split; [vm_compute; reflexivity|].
  apply Decode_never_ErrBadDictKey.
Qed.

(** C3 (truncated string): the claim is that a length prefix larger than the
    number of bytes that follow makes decoding fail. [parseString] drops both
    results of [Read]: decoding ["10:abc"] returns, with a nil error, a string
    of 10 bytes, ["abc"] followed by 7 zero bytes. *)
Theorem C3_truncated_string_is_accepted :
  DecodeString "10:abc"
  = Ret (Some (VString ("abc" +:+ string_repeat Ascii.zero 7))) None tt.
Proof. vm_compute. reflexivity. Qed.

(** C4 (key order): [Dict.Bencode] writes ['d'], then for every key of the
    dictionary, in strictly ascending byte-wise lexicographic order, the key
    as a [String] followed by its value, then ['e']; the order in which the
    keys were collected (or inserted) does not matter. Inserting ["b"] then
    ["a"] gives ["d1:ai2e1:bi1ee"]. *)
Theorem C4_dict_keys_ascending :
  (∀ d : gmap string Bencodable,
     Bencode (VDict d) =
       "d" +:+ string_concat
                 ((λ k, String_Bencode k +:+ from_option Bencode "" (d !! k))
                    <$> Dict_keys d)
           +:+ "e"
     ∧ StronglySorted String_as_OT.lt (Dict_keys d)
     ∧ (∀ k, k ∈ Dict_keys d ↔ is_Some (d !! k))
     ∧ (∀ ks, ks ≡ₚ (map_to_list d).*1 → sort_Strings ks = Dict_keys d))
  ∧ Bencode (VDict (<["a" := VInt 2]> (<["b" := VInt 1]> ∅))) = "d1:ai2e1:bi1ee".
Proof.
  split; [|by vm_compute].
  intros d. split; [apply Bencode_VDict|]. split; [|split].
  - apply StronglySorted_le_lt; [|apply Dict_keys_NoDup].
    apply StronglySorted_merge_sort; apply _.
  - apply elem_of_Dict_keys.
  - intros ks Hks. by apply sort_Strings_order_irrelevant.
Qed.

(** C5 (nested empty containers): decoding the 12 bytes ["llllldeeeeee"]
    gives five nested lists of one element each, the innermost element an
    empty dictionary, and [Bencode] of that value gives the same 12 bytes. *)
Theorem C5_nested_empty_containers :
  String.length "llllldeeeeee" = 12%nat
  ∧ DecodeString "llllldeeeeee"
    = Ret (Some (VList [VList [VList [VList [VList [VDict ∅]]]]])) None tt
  ∧ Bencode (VList [VList [VList [VList [VList [VDict ∅]]]]]) = "llllldeeeeee".
Proof. vm_compute. auto. Qed.

(** C6 (duplicate keys): the claim is that a dictionary in which a key occurs
    more than once decodes without an error, the key mapping to the value of
    its LAST pair. It is so for ["d1:ai1e1:ai2ee"], which gives the
    dictionary in which ["a"] maps to [Integer 2], and in general
    - for the bytes of a dictionary with arbitrary well-formed pairs [kvs]
      (keys in any order, repeated at will) that fit the buffer of the
      reader, whatever follows them, and
    - for an input of any size, when the parser reads the pairs [kvs] and
      then an end marker.
    It is not so beyond the buffer. In the 5016 bytes of the dictionary
    [long_duplicate_pairs] the key ["a"] comes with [Integer 1] and then
    with a string of 5000 bytes ['x']. Of that string [Read] copies the 4081
    bytes that are buffered; the next token starts at an ['x'] of the value,
    [parseDict] returns the nil [Dict] with the error for that byte, and
    [Decode] returns the nil [Dict] with a nil error: ["a"] maps to
    nothing. *)
Theorem C6_duplicate_key_lost_beyond_buffer :
  (Forall (λ kv, len_ok kv.1 ∧ well_formed kv.2) long_duplicate_pairs
   ∧ dict_bytes long_duplicate_pairs
     = "d1:ai1e1:a5000:" +:+ string_repeat "x" 5000 +:+ "e"
   ∧ last_value "a" long_duplicate_pairs = Some (VString (string_repeat "x" 5000))
   ∧ (∃ l, parse lexerImpl_next (Decode_fuel (dict_bytes long_duplicate_pairs))
             (newLexer (dict_bytes long_duplicate_pairs))
           = Ret (Some (VDict ∅)) (Some (ErrInvalidInputChar "x")) l)
   ∧ DecodeString (dict_bytes long_duplicate_pairs) = Ret (Some (VDict ∅)) None tt
   ∧ DecodeString (dict_bytes long_duplicate_pairs)
     ≠ Ret (Some (VDict (write_all long_duplicate_pairs ∅))) None tt)
  ∧ (∀ (kvs : list (string * Bencodable)) (extra : string),
       Forall (λ kv, len_ok kv.1 ∧ well_formed kv.2) kvs →
       (String.length (dict_bytes kvs) ≤ bufio.defaultBufSize)%nat →
       DecodeString (dict_bytes kvs +:+ extra)
       = Ret (Some (VDict (write_all kvs ∅))) None tt
       ∧ ∀ k, write_all kvs ∅ !! k = last_value k kvs)
  ∧ (∀ (input : string) (f n : nat) (l0 l1 l2 : lexerImpl)
       (kvs : list (string * Bencodable)) (o : option Bencodable),
       lexerImpl_next (newLexer input) = (mkToken dict nodata, None, l0) →
       read_pairs lexerImpl_next f n l0 = Some (kvs, l1) →
       parse lexerImpl_next f l1 = Ret o (Some ErrUnexpectedEnd) l2 →
       DecodeString input = Ret (Some (VDict (write_all kvs ∅))) None tt
       ∧ ∀ k, write_all kvs ∅ !! k = last_value k kvs)
  ∧ DecodeString "d1:ai1e1:ai2ee" = Ret (Some (VDict {[ "a" := VInt 2 ]})) None tt.
Proof.
  assert (∀ kvs k, write_all kvs ∅ !! k = last_value k kvs) as Hlast.
  { intros kvs k. rewrite write_all_lookup, lookup_empty.
    by destruct (last_value k kvs). }
  split; [|split; [|split; [|by vm_compute]]].
  - assert (DecodeString (dict_bytes long_duplicate_pairs) = Ret (Some (VDict ∅)) None tt)
      as Heval by (vm_compute; reflexivity).
    split; [repeat constructor; by vm_compute|].
    split; [vm_compute; reflexivity|].
    split; [vm_compute; reflexivity|].
    split; [eexists; vm_compute; reflexivity|].
    split; [exact Heval|].
    rewrite Heval. intros Heq.
    assert (write_all long_duplicate_pairs ∅ !! "a" = (∅ : gmap string Bencodable) !! "a")
      as Ha by congruence.
    rewrite Hlast in Ha. vm_compute in Ha. discriminate Ha.
  - intros kvs extra Hkvs Hlen. split; [|apply Hlast].
    apply Decode_buffered; [|done|done].
    apply reads_as_dict. eapply Forall_impl; [exact Hkvs|].
    intros kv [Hk Hv]. split; [done|by apply parse_Bencode].
  - intros input f n l0 l1 l2 kvs o Htok Hrd Hend. split; [|apply Hlast].
    unfold DecodeString, Decode.
    destruct (parse_terminates (Decode_fuel input)) as [Hp _].
    destruct (Hp (newLexer input)) as (o' & err' & l' & Hdec & _).
    { unfold Decode_fuel, remaining. simpl. lia. }
    assert (parse lexerImpl_next (S (S (n + f))) (newLexer input)
            = Ret (Some (VDict (write_all kvs ∅))) None l2) as Hbig.
    { rewrite parse_S, Htok. cbn [tok].
      by rewrite (parseDict_read_pairs _ n f l0 kvs l1 o l2). }
    rewrite (parse_fuel_agree _ _ _ _ _ _ _ Hbig); [done|]. by rewrite Hdec.
Qed.

Lemma C6_duplicate_key_lost_beyond_buffer_witness :
  let input := "d1:ai1e1:ai2ee" in
  let l0 := bufio.mkReader "1:ai1e1:ai2ee" "" in
  let l1 := bufio.mkReader "e" "" in
  let kvs := [("a", VInt 1); ("a", VInt 2)] in
  lexerImpl_next (newLexer input) = (mkToken dict nodata, None, l0)
  ∧ read_pairs lexerImpl_next 3 2 l0 = Some (kvs, l1)
  ∧ dict_bytes kvs = input
  ∧ DecodeString input = Ret (Some (VDict (write_all kvs ∅))) None tt
  ∧ DecodeString (dict_bytes kvs +:+ "xyz") = Ret (Some (VDict (write_all kvs ∅))) None tt
  ∧ write_all kvs ∅ !! "a" = Some (VInt 2).
Proof.
  intros input l0 l1 kvs.
  split; [vm_compute; reflexivity|]. split; [vm_compute; reflexivity|].
  split; [vm_compute; reflexivity|].
  destruct (proj1 (proj2 (proj2 C6_duplicate_key_lost_beyond_buffer)) input 3 2 l0 l1
              (bufio.mkReader "" "") kvs None) as [H1 H2];
    [vm_compute; reflexivity ..|].
  destruct (proj1 (proj2 C6_duplicate_key_lost_beyond_buffer) kvs "xyz") as [H3 _].
  { repeat constructor; by vm_compute. }
  { vm_compute. lia. }
  split; [exact H1|]. split; [exact H3|]. rewrite H2. reflexivity.
Defined.

(** C7 (unexpected termination): the claim is that an end marker in place of
    the top-level value, and an input that ends where a value is expected,
    make decoding fail with the unexpected-termination error and return no
    value. For an end marker at the top level and for the empty input this
    is so. Inside a container it is not: for ["d1:a"], which ends where the
    value of key ["a"] is expected, [parse] does return [ErrUnexpectedEOF],
    but together with a nil [Dict], which is a non-nil interface value, and
    [Decode] returns that empty dictionary with a nil error; the same for the
    list ["li1e"]. *)
Theorem C7_end_of_input_inside_container_is_not_reported :
  (∀ rest, DecodeString (String "e" rest) = Ret None (Some ErrUnexpectedEnd) tt)
  ∧ DecodeString "" = Ret None (Some ErrUnexpectedEOF) tt
  ∧ (∃ l, parse lexerImpl_next (Decode_fuel "d1:a") (newLexer "d1:a")
          = Ret (Some (VDict ∅)) (Some ErrUnexpectedEOF) l)
  ∧ DecodeString "d1:a" = Ret (Some (VDict ∅)) None tt
  ∧ DecodeString "li1e" = Ret (Some (VList [])) None tt.
Proof.
  split; [apply Decode_top_level_termination|].
  split; [apply Decode_top_level_termination|].
  split; [eexists; vm_compute; reflexivity|].
  split; vm_compute; reflexivity.
Qed.

(** C8 (trailing bytes): the claim is that after one complete value any
    further bytes are ignored. [Decode_Bencode_buffered] shows this for every
    value whose encoding fits the buffer of the [bufio.Reader]; it is not so
    beyond that. The encoding of [straddling_list] is 4098 bytes long; the
    last byte ['l'] of its string is not buffered when [Read] is called, is
    replaced by a zero byte and is then read as the next token. Without
    further bytes [Decode] returns an empty list; followed by the one byte
    ['e'] it returns a list of two elements. Neither is [straddling_list]. *)
Theorem C8_trailing_byte_changes_the_result :
  well_formed straddling_list
  ∧ String.length (Bencode straddling_list) = 4098%nat
  ∧ DecodeString (Bencode straddling_list) = Ret (Some (VList [])) None tt
  ∧ DecodeString (Bencode straddling_list +:+ "e")
    = Ret (Some (VList [VString (string_repeat "a" 4090 +:+ String Ascii.zero "");
                        VList []])) None tt.
Proof.
  split.
  { constructor. constructor; [|constructor]. constructor. by vm_compute. }
  split; [by vm_compute|]. split; vm_compute; reflexivity.
Qed.

(** C9 (NewIntFromString): whenever [SetString] rejects [s] in the given
    base, [NewIntFromString] returns the zero [Integer] (one holding a nil
    [big.Int] pointer) and a nil error. *)
Theorem C9_NewIntFromString_hides_failure
    (SetString : string → Z → option Z) (s : string) (base : Z) :
  SetString s base = None →
  NewIntFromString SetString s base = (mkInteger None, None).
Proof. unfold NewIntFromString. by intros ->. Qed.

Lemma C9_NewIntFromString_hides_failure_witness :
  big.SetString10 "12q" = None
  ∧ NewIntFromString (λ s _, big.SetString10 s) "12q" 10 = (mkInteger None, None).
Proof.
  split; [reflexivity|].
  apply (C9_NewIntFromString_hides_failure (λ s _, big.SetString10 s) "12q" 10).
  reflexivity.
Defined.

(** C10 (non-canonical literals): ["i007e"] and ["i+7e"] decode to
    [Integer 7], and ["03:abc"] decodes to the 3-byte string ["abc"], all
    without an error. *)
Theorem C10_non_canonical_literals_are_accepted :
  DecodeString "i007e" = Ret (Some (VInt 7)) None tt
  ∧ DecodeString "i+7e" = Ret (Some (VInt 7)) None tt
  ∧ DecodeString "03:abc" = Ret (Some (VString "abc")) None tt.
Proof. vm_compute. auto. Qed.

(** * Further properties *)

(** ** The reader as a stream of bytes *)

Lemma fill_content b : content (bufio.fill b) = content b.
Proof.
  unfold content, bufio.fill. cbn [bufio.buf bufio.rd].
  by rewrite string_app_assoc, string_take_drop.
Qed.

Lemma string_app_nil_inv (s t : string) : s +:+ t = "" → s = "" ∧ t = "".
Proof. destruct s; [done|]. by rewrite string_app_cons. Qed.

Lemma fill_buf_nonempty b :
  content b ≠ "" → bufio.buf b = "" → bufio.buf (bufio.fill b) ≠ "".
Proof.
  unfold content, bufio.fill, bufio.Buffered. destruct b as [bf r]. cbn [bufio.buf bufio.rd].
  intros Hne ->. rewrite string_app_nil_l in *. cbn [String.length].
  rewrite Nat.sub_0_r. destruct r as [|c r]; [done|].
  change bufio.defaultBufSize with (S (pred bufio.defaultBufSize)).
  cbn [string_take]. done.
Qed.

Lemma ReadByte_content b :
  match content b with
  | "" => ∃ b', bufio.ReadByte b = (None, b') ∧ content b' = ""
  | String c s => ∃ b', bufio.ReadByte b = (Some c, b') ∧ content b' = s
  end.
Proof.
  unfold bufio.ReadByte.
  set (b1 := match bufio.buf b with "" => bufio.fill b | _ => b end).
  assert (content b1 = content b) as Hc.
  { unfold b1. destruct (bufio.buf b); [apply fill_content|done]. }
  assert (content b ≠ "" → bufio.buf b1 ≠ "") as Hne.
  { intros Hn. unfold b1. destruct (bufio.buf b) eqn:E; [by apply fill_buf_nonempty|].
    by rewrite E. }
  rewrite <- Hc in *. clearbody b1. destruct b1 as [bf r]. unfold content in *.
  cbn [bufio.buf bufio.rd] in *. destruct bf as [|c bf].
  - rewrite string_app_nil_l in *. destruct r; [|by destruct Hne].
    eexists. split; done.
  - rewrite string_app_cons. eexists. split; done.
Qed.

Lemma string_cut_app_Some delim s line rest t :
  string_cut delim s = Some (line, rest) →
  string_cut delim (s +:+ t) = Some (line, rest +:+ t).
Proof.
  revert line rest. induction s as [|c s IH]; intros line rest; [done|].
  rewrite string_app_cons. simpl. destruct (Ascii.eqb c delim).
  - by intros [= <- <-].
  - destruct (string_cut delim s) as [[l0 r0]|]; [|done].
    intros [= <- <-]. by rewrite (IH l0 r0).
Qed.

Lemma string_cut_app_None delim s t :
  string_cut delim s = None →
  string_cut delim (s +:+ t) =
  match string_cut delim t with
  | Some (line, rest) => Some (s +:+ line, rest)
  | None => None
  end.
Proof.
  induction s as [|c s IH].
  { rewrite string_app_nil_l. by destruct (string_cut delim t) as [[]|]. }
  rewrite string_app_cons. simpl. destruct (Ascii.eqb c delim); [done|].
  destruct (string_cut delim s) as [[]|]; [done|]. intros _. rewrite IH by done.
  by destruct (string_cut delim t) as [[]|].
Qed.

(** [ReadString] returns the bytes up to and including the first [delim]
    and leaves the bytes behind it, wherever the buffer loads fall; without
    a [delim] it returns everything with [io.EOF]. *)
Lemma ReadString_go_content fuel delim acc b :
  (String.length (bufio.rd b) ≤ fuel)%nat →
  match string_cut delim (content b) with
  | Some (line, rest) =>
      ∃ b', bufio.ReadString_go fuel delim acc b = (acc +:+ line, None, b')
            ∧ content b' = rest
  | None =>
      bufio.ReadString_go fuel delim acc b
      = (acc +:+ content b, Some io_EOF, bufio.mkReader "" "")
  end.
Proof.
  revert acc b. induction fuel as [|fuel IH]; intros acc [bf r] Hfuel;
    unfold content; cbn [bufio.ReadString_go bufio.buf bufio.rd] in *.
  - destruct r; [|simpl in Hfuel; lia]. rewrite string_app_nil_r.
    destruct (string_cut delim bf) as [[line rest]|]; [|done].
    eexists. split; [done|]. unfold content. cbn. by rewrite string_app_nil_r.
  - destruct (string_cut delim bf) as [[line rest]|] eqn:Hcut.
    { rewrite (string_cut_app_Some _ _ _ _ _ Hcut). eexists. split; done. }
    rewrite (string_cut_app_None _ _ _ Hcut).
    destruct r as [|c r]; [by rewrite string_app_nil_r|].
    pose proof defaultBufSize_pos as Hpos.
    destruct (bufio.defaultBufSize <=? bufio.Buffered _)%nat eqn:Hfull.
    + specialize (IH (acc +:+ bf) (bufio.fill (bufio.mkReader "" (String c r)))).
      rewrite fill_content in IH. unfold content in IH. cbn [bufio.buf bufio.rd] in IH.
      rewrite string_app_nil_l in IH.
      destruct (string_cut delim (String c r)) as [[line rest]|].
      * destruct IH as (b' & -> & Hb').
        { unfold bufio.fill, bufio.Buffered. cbn [bufio.buf bufio.rd String.length].
          rewrite string_drop_length. simpl in *. lia. }
        eexists. split; [|done]. by rewrite string_app_assoc.
      * rewrite IH; [by rewrite string_app_assoc|].
        unfold bufio.fill, bufio.Buffered. cbn [bufio.buf bufio.rd String.length].
        rewrite string_drop_length. simpl in *. lia.
    + apply Nat.leb_gt in Hfull.
      specialize (IH acc (bufio.fill (bufio.mkReader bf (String c r)))).
      rewrite fill_content in IH. unfold content in IH. cbn [bufio.buf bufio.rd] in IH.
      rewrite (string_cut_app_None _ _ _ Hcut) in IH.
      destruct (string_cut delim (String c r)) as [[line rest]|].
      * destruct IH as (b' & -> & Hb').
        { unfold bufio.fill, bufio.Buffered in *. cbn [bufio.buf bufio.rd] in *.
          rewrite string_drop_length. simpl in *. lia. }
        eexists. split; done.
      * rewrite IH; [done|].
        unfold bufio.fill, bufio.Buffered in *. cbn [bufio.buf bufio.rd] in *.
        rewrite string_drop_length. simpl in *. lia.
Qed.

Lemma ReadString_content delim b :
  match string_cut delim (content b) with
  | Some (line, rest) =>
      ∃ b', bufio.ReadString delim b = (line, None, b') ∧ content b' = rest
  | None => bufio.ReadString delim b = (content b, Some io_EOF, bufio.mkReader "" "")
  end.
Proof.
  unfold bufio.ReadString.
  pose proof (ReadString_go_content (String.length (bufio.rd b)) delim "" b (le_n _)) as H.
  destruct (string_cut delim (content b)) as [[line rest]|]; exact H.
Qed.

(** ** The lexer on a stream of bytes *)

Lemma content_newLexer input : content (newLexer input) = input.
Proof. reflexivity. Qed.

Lemma string_cut_None_free delim s : free_of delim s = true → string_cut delim s = None.
Proof.
  induction s as [|c s IH]; simpl; [done|].
  intros [Hc Hs]%andb_true_iff. apply negb_true_iff in Hc. by rewrite Hc, IH.
Qed.

(** [parseInt]: the bytes up to the first ['e'] are the literal; without an
    ['e'] the call fails with [io.EOF]. *)
Lemma parseInt_content l :
  match string_cut "e" (content l) with
  | Some (line, rest) =>
      ∃ l', content l' = rest ∧
        lexerImpl_parseInt l =
        match big.SetString10 (string_init line) with
        | Some b => (mkToken integer (intdata b), None, l')
        | None => (zeroToken, Some ErrInvalidInteger, l')
        end
  | None => lexerImpl_parseInt l = (zeroToken, Some io_EOF, bufio.mkReader "" "")
  end.
Proof.
  unfold lexerImpl_parseInt. pose proof (ReadString_content "e" l) as H.
  destruct (string_cut "e" (content l)) as [[line rest]|].
  - destruct H as (l' & -> & Hl'). exists l'. split; [done|].
    by destruct (big.SetString10 _).
  - by rewrite H.
Qed.

(** [parseString]: the bytes up to the first [':'] are the length prefix;
    a prefix [ParseUint] accepts gives a string token of exactly that many
    bytes and no error. *)
Lemma parseString_content l :
  match string_cut ":" (content l) with
  | Some (line, rest) =>
      match strconv.ParseUint (string_init line) with
      | inr e => ∃ l', lexerImpl_parseString l = (zeroToken, Some e, l')
      | inl sz =>
          ∃ out l', lexerImpl_parseString l = (mkToken str (strdata out), None, l')
                    ∧ String.length out = N.to_nat sz
      end
  | None => lexerImpl_parseString l = (zeroToken, Some io_EOF, bufio.mkReader "" "")
  end.
Proof.
  pose proof (ReadString_content ":" l) as H.
  destruct (string_cut ":" (content l)) as [[line rest]|].
  - destruct H as (l' & Hrs & Hl').
    destruct (strconv.ParseUint (string_init line)) as [sz|e] eqn:Hp.
    + destruct (parseString_no_short_read_error l line l' sz Hrs Hp) as (out & l2 & ? & ?).
      by exists out, l2.
    + unfold lexerImpl_parseString. rewrite Hrs, Hp. by eexists.
  - unfold lexerImpl_parseString. by rewrite H.
Qed.

(** What [Decode] returns, from what [parse] returns with any fuel. *)
Lemma Decode_eq_parse input f o err l :
  parse lexerImpl_next f (newLexer input) = Ret o err l →
  DecodeString input =
  match err, o with
  | Some e, None => Ret None (Some e) tt
  | _, _ => Ret o None tt
  end.
Proof.
  intros Hf. unfold DecodeString, Decode.
  destruct (parse_terminates (Decode_fuel input)) as [Hp _].
  destruct (Hp (newLexer input)) as (o' & err' & l' & Hdec & _).
  { unfold Decode_fuel, remaining. simpl. lia. }
  rewrite (parse_fuel_agree _ _ _ _ _ _ _ Hf); [done|]. by rewrite Hdec.
Qed.

(** The first token decides whether [Decode] returns an error. *)
Lemma Decode_first_token input :
  match lexerImpl_next (newLexer input) with
  | (_, Some e, _) => DecodeString input = Ret None (Some e) tt
  | (t, None, _) =>
      match tok t with
      | end_ => DecodeString input = Ret None (Some ErrUnexpectedEnd) tt
      | eof => DecodeString input = Ret None (Some ErrUnexpectedEOF) tt
      | _ => ∃ v, DecodeString input = Ret (Some v) None tt
      end
  end.
Proof.
  destruct (parse_terminates (Decode_fuel input)) as [Hp _].
  destruct (Hp (newLexer input)) as (o & err & l' & Hdec & _ & Hval).
  { unfold Decode_fuel, remaining. simpl. lia. }
  rewrite (Decode_eq_parse _ _ _ _ _ Hdec).
  unfold Decode_fuel in Hdec. rewrite Nat.add_1_r, parse_S in Hdec.
  destruct (lexerImpl_next (newLexer input)) as [[t e] l1].
  destruct e as [e|]; [by injection Hdec as <- <- <-|].
  destruct (tok t); try (by injection Hdec as <- <- <-).
  - done.
  - destruct (parseDict _ _ _ _) as [d e l2| |]; try done.
    injection Hdec as <- <- <-. destruct e; by eexists.
  - destruct (data t); try done; injection Hdec as <- <- <-; by eexists.
  - destruct (parseList _ _ _ _) as [d e l2| |]; try done.
    injection Hdec as <- <- <-. destruct e; by eexists.
  - destruct (data t); try done; injection Hdec as <- <- <-; by eexists.
Qed.

(** What [next] does with an integer literal at the head of the stream. *)
Lemma next_content_integer l body rest :
  content l = String "i" (body +:+ String "e" rest) → free_of "e" body = true →
  ∃ l', content l' = rest ∧
    lexerImpl_next l =
    match big.SetString10 body with
    | Some z => (mkToken integer (intdata z), None, l')
    | None => (zeroToken, Some ErrInvalidInteger, l')
    end.
Proof.
  intros Hc Hfree. pose proof (ReadByte_content l) as Hrb. rewrite Hc in Hrb.
  destruct Hrb as (l1 & Hrb & Hl1).
  pose proof (parseInt_content l1) as Hpi. rewrite Hl1, string_cut_free in Hpi by done.
  destruct Hpi as (l' & Hl' & Hpi). exists l'. split; [done|].
  unfold lexerImpl_next. rewrite Hrb.
  change (Ascii.eqb "i" "d") with false. change (Ascii.eqb "i" "l") with false.
  change (Ascii.eqb "i" "e") with false. change (Ascii.eqb "i" "i") with true.
  cbv iota. by rewrite Hpi, string_init_snoc.
Qed.

Lemma next_content_integer_open l body :
  content l = String "i" body → free_of "e" body = true →
  lexerImpl_next l = (zeroToken, Some io_EOF, bufio.mkReader "" "").
Proof.
  intros Hc Hfree. pose proof (ReadByte_content l) as Hrb. rewrite Hc in Hrb.
  destruct Hrb as (l1 & Hrb & Hl1).
  pose proof (parseInt_content l1) as Hpi.
  rewrite Hl1, string_cut_None_free in Hpi by done.
  unfold lexerImpl_next. rewrite Hrb.
  change (Ascii.eqb "i" "d") with false. change (Ascii.eqb "i" "l") with false.
  change (Ascii.eqb "i" "e") with false. change (Ascii.eqb "i" "i") with true.
  cbv iota. exact Hpi.
Qed.

(** X1 ([Decode]): whatever [Decode] returns is either a value with a nil
    error, or a nil value with an error; never a value together with an
    error, and never nil with a nil error. *)
Theorem X1_Decode_value_or_error_never_both (input : string) o err :
  DecodeString input = Ret o err tt →
  (is_Some o ∧ err = None) ∨ (o = None ∧ is_Some err).
Proof.
  intros Hdec. pose proof (Decode_first_token input) as H.
  destruct (lexerImpl_next (newLexer input)) as [[t e] l1].
  destruct e as [e|]; cbv beta iota in H.
  { rewrite H in Hdec. injection Hdec as <- <-. right. split; [done|by eexists]. }
  destruct (tok t).
  2,7: rewrite H in Hdec; injection Hdec as <- <-; right; split; [done|by eexists].
  all: destruct H as [v H]; rewrite H in Hdec; injection Hdec as <- <-;
    left; split; [by eexists|done].
Qed.

Lemma X1_Decode_value_or_error_never_both_witness :
  DecodeString "d3:key" = Ret (Some (VDict ∅)) None tt
  ∧ ((is_Some (Some (VDict ∅)) ∧ @None error = None)
     ∨ (Some (VDict ∅) = None ∧ is_Some (@None error))).
Proof.
  assert (DecodeString "d3:key" = Ret (Some (VDict ∅)) None tt) as H by reflexivity.
  split; [exact H|]. exact (X1_Decode_value_or_error_never_both _ _ _ H).
Defined.

(** X5 (integer literals): for the input ['i'], [body], ['e'], [rest], with
    no ['e'] in [body], [Decode] returns the [Integer] that
    [SetString(body, 10)] gives, and the error [Invalid integer.] when
    [SetString] rejects [body]; this holds however long [body] is and
    whatever [rest] is. When no ['e'] follows the ['i'] at all, [Decode]
    returns [io.EOF]. *)
Theorem X5_integer_literal_of_any_length (body : string) :
  free_of "e" body = true →
  (∀ rest,
     DecodeString (String "i" (body +:+ String "e" rest)) =
     match big.SetString10 body with
     | Some z => Ret (Some (VInteger (mkInteger (Some z)))) None tt
     | None => Ret None (Some ErrInvalidInteger) tt
     end)
  ∧ DecodeString (String "i" body) = Ret None (Some io_EOF) tt.
Proof.
  intros Hfree. split.
  - intros rest.
    destruct (next_content_integer (newLexer (String "i" (body +:+ String "e" rest)))
                body rest eq_refl Hfree) as (l' & _ & Hn).
    destruct (big.SetString10 body) as [z|];
      (erewrite Decode_eq_parse; [|rewrite (parse_S _ 0), Hn; reflexivity]); done.
  - erewrite Decode_eq_parse;
      [|by rewrite (parse_S _ 0), (next_content_integer_open _ body)]; done.
Qed.

Lemma X5_integer_literal_of_any_length_witness :
  free_of "e" "-42" = true
  ∧ DecodeString "i-42e4:spam" = Ret (Some (VInt (-42))) None tt
  ∧ DecodeString "i-42" = Ret None (Some io_EOF) tt.
Proof.
  split; [reflexivity|].
  destruct (X5_integer_literal_of_any_length "-42" eq_refl) as [H1 H2].
  split; [exact (H1 "4:spam")|exact H2].
Defined.

(** X6 (invalid first byte): an input whose first byte is not ['d'], ['l'],
    ['e'], ['i'] or a decimal digit is refused with the error
    [Invalid input char] for that byte, whatever follows. *)
Theorem X6_invalid_lead_byte (c : ascii) (rest : string) :
  c ≠ "d"%char → c ≠ "l"%char → c ≠ "e"%char → c ≠ "i"%char → is_digit c = false →
  DecodeString (String c rest) = Ret None (Some (ErrInvalidInputChar c)) tt.
Proof.
  intros Hd Hl He Hi Hdig.
  apply Ascii.eqb_neq in Hd, Hl, He, Hi.
  erewrite Decode_eq_parse; [|rewrite (parse_S _ 0); unfold lexerImpl_next, newLexer;
    by rewrite ReadByte_NewReader, Hd, Hl, He, Hi, Hdig]; done.
Qed.

Lemma X6_invalid_lead_byte_witness :
  DecodeString "x3:abc" = Ret None (Some (ErrInvalidInputChar "x")) tt.
Proof. by apply X6_invalid_lead_byte. Defined.

Lemma is_digit_free_colon c s :
  is_digit c = true → free_of ":" s = true → free_of ":" (String c s) = true.
Proof.
  intros Hc Hs. simpl. rewrite Hs, andb_true_r. apply negb_true_iff, Ascii.eqb_neq.
  intros ->. by vm_compute in Hc.
Qed.

Lemma next_content_digit l c s :
  content l = String c s → is_digit c = true →
  ∃ l1, content l1 = String c s ∧ lexerImpl_next l = lexerImpl_parseString l1.
Proof.
  intros Hc Hdig. pose proof (ReadByte_content l) as Hrb. rewrite Hc in Hrb.
  destruct Hrb as (l1 & Hrb & Hl1). exists (bufio.UnreadByte c l1). split.
  { unfold content, bufio.UnreadByte in *. cbn [bufio.buf bufio.rd].
    by rewrite string_app_cons, Hl1. }
  unfold lexerImpl_next. rewrite Hrb.
  assert (Ascii.eqb c "d" = false ∧ Ascii.eqb c "l" = false
          ∧ Ascii.eqb c "e" = false ∧ Ascii.eqb c "i" = false) as (-> & -> & -> & ->).
  { repeat split; apply Ascii.eqb_neq; intros ->; by vm_compute in Hdig. }
  by rewrite Hdig.
Qed.

(** X7 (string literals): take an input that starts with a decimal digit.
    With no [':'] in it, [Decode] returns [io.EOF]. With a first [':'],
    when [strconv.ParseUint] refuses the bytes before it, [Decode] returns
    that error; when it accepts them as [sz], whatever [Decode] returns is a
    [String] of exactly [sz] bytes and a nil error, however few bytes follow
    the [':']. *)
Theorem X7_string_literal_by_length_prefix (c : ascii) (le rest : string) :
  is_digit c = true → free_of ":" le = true →
  DecodeString (String c le) = Ret None (Some io_EOF) tt
  ∧ match strconv.ParseUint (String c le) with
    | inr e => DecodeString (String c le +:+ String ":" rest) = Ret None (Some e) tt
    | inl sz =>
        ∀ o err, DecodeString (String c le +:+ String ":" rest) = Ret o err tt →
          err = None ∧ ∃ out, o = Some (VString out) ∧ String.length out = N.to_nat sz
    end.
Proof.
  intros Hc Hle. pose proof (is_digit_free_colon c le Hc Hle) as Hfree. split.
  - destruct (next_content_digit (newLexer (String c le)) c le eq_refl Hc) as (l1 & Hl1 & Hn).
    pose proof (parseString_content l1) as Hps.
    rewrite Hl1, string_cut_None_free in Hps by done.
    erewrite Decode_eq_parse; [|by rewrite (parse_S _ 0), Hn, Hps]; done.
  - destruct (next_content_digit (newLexer (String c le +:+ String ":" rest)) c
                (le +:+ String ":" rest) eq_refl Hc) as (l1 & Hl1 & Hn).
    pose proof (parseString_content l1) as Hps.
    rewrite Hl1, <- string_app_cons, string_cut_free, string_init_snoc in Hps by done.
    destruct (strconv.ParseUint (String c le)) as [sz|e].
    + destruct Hps as (out & l' & Hps & Hlen). intros o err Hdec.
      erewrite Decode_eq_parse in Hdec; [|by rewrite (parse_S _ 0), Hn, Hps].
      injection Hdec as <- <-. split; [done|]. by exists out.
    + destruct Hps as (l' & Hps).
      erewrite Decode_eq_parse; [|by rewrite (parse_S _ 0), Hn, Hps]; done.
Qed.

Lemma X7_string_literal_by_length_prefix_witness :
  DecodeString "12" = Ret None (Some io_EOF) tt
  ∧ DecodeString "1x:abc" = Ret None (Some (NumError_Syntax "1x")) tt
  ∧ DecodeString "12:abc"
    = Ret (Some (VString ("abc" +:+ string_repeat Ascii.zero 9))) None tt
  ∧ ∃ out, Some (VString ("abc" +:+ string_repeat Ascii.zero 9)) = Some (VString out)
           ∧ String.length out = 12%nat.
Proof.
  destruct (X7_string_literal_by_length_prefix "1" "2" "abc" eq_refl eq_refl) as [H1 H2].
  destruct (X7_string_literal_by_length_prefix "1" "x" "abc" eq_refl eq_refl) as [_ H3].
  assert (DecodeString "12:abc"
          = Ret (Some (VString ("abc" +:+ string_repeat Ascii.zero 9))) None tt) as H
    by reflexivity.
  split; [exact H1|]. split; [exact H3|]. split; [exact H|].
  exact (proj2 (H2 _ _ H)).
Defined.

(** X4 (containers): for an input that starts with ['d'] whatever [Decode]
    returns is a [Dict] and a nil error, and for an input that starts with
    ['l'] it is a [List] and a nil error: no error met inside a list or a
    dictionary reaches the caller of [Decode]. *)
Theorem X4_containers_report_no_error (rest : string) o err :
  (DecodeString (String "d" rest) = Ret o err tt → err = None ∧ ∃ d, o = Some (VDict d))
  ∧ (DecodeString (String "l" rest) = Ret o err tt → err = None ∧ ∃ l, o = Some (VList l)).
Proof.
  split; intros Hres.
  - set (input := String "d" rest) in *.
    destruct (parse_terminates (Decode_fuel input)) as [Hp _].
    destruct (Hp (newLexer input)) as (o' & err' & l' & Hdec & _).
    { unfold Decode_fuel, remaining. simpl. lia. }
    rewrite (Decode_eq_parse _ _ _ _ _ Hdec) in Hres.
    unfold Decode_fuel in Hdec. rewrite Nat.add_1_r, parse_S in Hdec.
    destruct (parse_first_token "d" dict rest 0) as [l Hl]; [auto|].
    unfold input in Hdec. rewrite Hl in Hdec. cbn [tok] in Hdec.
    destruct (parseDict _ _ _ _) as [d e l1| |]; try done.
    injection Hdec as <- <- <-.
    destruct e; injection Hres as <- <-; (split; [done|by exists d]).
  - set (input := String "l" rest) in *.
    destruct (parse_terminates (Decode_fuel input)) as [Hp _].
    destruct (Hp (newLexer input)) as (o' & err' & l' & Hdec & _).
    { unfold Decode_fuel, remaining. simpl. lia. }
    rewrite (Decode_eq_parse _ _ _ _ _ Hdec) in Hres.
    unfold Decode_fuel in Hdec. rewrite Nat.add_1_r, parse_S in Hdec.
    destruct (parse_first_token "l" list_ rest 0) as [l Hl]; [auto|].
    unfold input in Hdec. rewrite Hl in Hdec. cbn [tok] in Hdec.
    destruct (parseList _ _ _ _) as [d e l1| |]; try done.
    injection Hdec as <- <- <-.
    destruct e; injection Hres as <- <-; (split; [done|by exists d]).
Qed.

Lemma X4_containers_report_no_error_witness :
  DecodeString "dxyz" = Ret (Some (VDict ∅)) None tt
  ∧ (@None error = None ∧ ∃ d, Some (VDict ∅) = Some (VDict d)).
Proof.
  assert (DecodeString "dxyz" = Ret (Some (VDict ∅)) None tt) as H by reflexivity.
  split; [exact H|]. exact (proj1 (X4_containers_report_no_error "xyz" _ _) H).
Defined.

(** X2 (round trip within the buffer): [DecodeBytes] of the encoding of a
    well-formed value gives the value again, and a nil error, when the
    encoding is not longer than the 4096-byte buffer of the [bufio.Reader];
    the bytes that follow the encoding in the input do not matter. *)
Theorem X2_roundtrip_within_buffer (v : Bencodable) (extra : string) :
  well_formed v →
  (String.length (Bencode v) ≤ bufio.defaultBufSize)%nat →
  DecodeBytes (Bencode v +:+ extra) = Ret (Some v) None tt.
Proof.
  intros Hwf Hlen. change (DecodeBytes ?b) with (DecodeString b).
  apply Decode_buffered; [|apply Bencode_nonempty|done].
  by apply parse_Bencode.
Qed.

Lemma well_formed_singleton_dict k v :
  len_ok k → well_formed v → well_formed (VDict {[ k := v ]}).
Proof.
  intros Hk Hv. constructor. intros k' v' [<- <-]%lookup_singleton_Some. done.
Qed.

Lemma X2_roundtrip_within_buffer_witness :
  let v := VList [VDict {[ "spam" := VList [VInt (-3); VString "eggs"] ]}; VInt 0] in
  Bencode v = "ld4:spamli-3e4:eggseei0ee"
  ∧ DecodeBytes (Bencode v +:+ "trailing") = Ret (Some v) None tt.
Proof.
  intros v. split; [by vm_compute|].
  apply X2_roundtrip_within_buffer; [|vm_compute; lia].
  repeat first [apply well_formed_singleton_dict | constructor]; by vm_compute.
Defined.

(** X3 ([Bencode]): the encodings of well-formed values are prefix-free. If
    the encoding of [v1] followed by [y1] is the same byte sequence as the
    encoding of [v2] followed by [y2], then [v1 = v2] and [y1 = y2]; so
    [Bencode] is injective on well-formed values and no encoding is the
    beginning of another. *)
Theorem X3_Bencode_is_prefix_free (v1 v2 : Bencodable) (y1 y2 : string) :
  well_formed v1 → well_formed v2 →
  Bencode v1 +:+ y1 = Bencode v2 +:+ y2 → v1 = v2 ∧ y1 = y2.
Proof.
  intros H1 H2 Heq.
  destruct (parse_Bencode v1 H1 y1 "") as [f1 Hf1].
  destruct (parse_Bencode v2 H2 y2 "") as [f2 Hf2].
  rewrite Heq in Hf1.
  apply (parse_fuel_mono _ _ (f1 `max` f2)) in Hf1; [|lia].
  apply (parse_fuel_mono _ _ (f1 `max` f2)) in Hf2; [|lia].
  rewrite Hf1 in Hf2. by injection Hf2 as -> ->.
Qed.

Lemma X3_Bencode_is_prefix_free_witness :
  Bencode (VList [VInt 12]) +:+ "3:abc" = "li12ee3:abc"
  ∧ (VList [VInt 12] = VList [VInt 12] ∧ "3:abc" = "3:abc").
Proof.
  split; [reflexivity|].
  apply (X3_Bencode_is_prefix_free (VList [VInt 12]) (VList [VInt 12]) "3:abc" "3:abc");
    [repeat constructor | repeat constructor | reflexivity].
Defined.

(** ** Strings that do not fit the buffer *)

Lemma digits_go_length fuel n acc :
  (String.length (strconv.digits_go fuel n acc) ≤ fuel + String.length acc)%nat.
Proof.
  revert n acc. induction fuel as [|fuel IH]; intros n acc; cbn [strconv.digits_go]; [lia|].
  destruct (n <? 10)%N; [simpl; lia|].
  etransitivity; [apply IH|]. simpl. lia.
Qed.

Lemma FormatUint_length n :
  (n < 2 ^ 64)%N → (String.length (strconv.FormatUint n) ≤ 64)%nat.
Proof.
  intros Hn. unfold strconv.FormatUint.
  etransitivity; [apply digits_go_length|]. simpl.
  destruct (decide (n = 0%N)) as [->|Hne]; [simpl; lia|].
  assert (N.log2 n < 64)%N by (apply N.log2_lt_pow2; lia). lia.
Qed.

Lemma defaultBufSize_ge_100 : (100 ≤ bufio.defaultBufSize)%nat.
Proof. apply Nat.leb_le. reflexivity. Qed.

Lemma string_take_nil n : string_take n "" = "".
Proof. by destruct n. Qed.

Lemma string_take_take_app (s e : string) (k : nat) :
  string_take (String.length s) (string_take k (s +:+ e)) = string_take k s.
Proof.
  revert k. induction s as [|c s IH]; intros k.
  - simpl. by rewrite string_take_nil.
  - rewrite string_app_cons. destruct k as [|k]; [done|]. simpl. by rewrite IH.
Qed.

Lemma Read_take (m : nat) (B r : string) :
  B ≠ "" ∨ m = 0%nat →
  bufio.Read m (bufio.mkReader B r)
  = (string_take m B, bufio.mkReader (string_drop m B) r).
Proof.
  intros H. destruct m as [|m]; [done|]. destruct H as [H|]; [|done].
  unfold bufio.Read. cbn [bufio.buf bufio.rd]. by destruct B.
Qed.

(** [next] on a string literal whose length prefix is buffered: the payload
    is whatever one [Read] delivers, padded with zero bytes. *)
Lemma next_String_prefix (n : N) (B r : string) :
  (n < 2 ^ 64)%N →
  lexerImpl_next (bufio.mkReader (strconv.FormatUint n +:+ String ":" B) r)
  = let '(got, l2) := bufio.Read (N.to_nat n) (bufio.mkReader B r) in
    (mkToken str
       (strdata (got +:+ string_repeat Ascii.zero (N.to_nat n - String.length got))),
     None, l2).
Proof.
  intros Hn.
  destruct (FormatUint_spec n) as (c & D & Heq & Hc & HD & _).
  pose proof (ParseUint_FormatUint n Hn) as Hparse.
  rewrite Heq in *. rewrite string_app_cons.
  unfold lexerImpl_next, bufio.ReadByte. cbn [bufio.buf bufio.rd].
  assert (Ascii.eqb c "d" = false ∧ Ascii.eqb c "l" = false
          ∧ Ascii.eqb c "e" = false ∧ Ascii.eqb c "i" = false) as (-> & -> & -> & ->).
  { repeat split; apply Ascii.eqb_neq; intros ->; by vm_compute in Hc. }
  rewrite Hc. unfold bufio.UnreadByte, lexerImpl_parseString. cbn [bufio.buf bufio.rd].
  rewrite <- string_app_cons.
  rewrite ReadString_buffered.
  2:{ apply all_digits_free; [done|]. simpl. by rewrite Hc. }
  by rewrite string_init_snoc, Hparse.
Qed.

(** What [Decode] makes of the encoding of a string: the bytes one [Read]
    delivers from the first buffer load, then the zero bytes of [make]. *)
Lemma Decode_String_Bencode (s extra : string) :
  len_ok s →
  let k := (bufio.defaultBufSize
            - (String.length (strconv.FormatUint (N.of_nat (String.length s))) + 1))%nat in
  DecodeString (String_Bencode s +:+ extra)
  = Ret (Some (VString (string_take k s
                        +:+ string_repeat Ascii.zero (String.length s - k)))) None tt.
Proof.
  intros Hlen k. unfold len_ok in Hlen.
  set (n := N.of_nat (String.length s)) in *.
  assert (n < 2 ^ 64)%N as Hn by (unfold n; lia).
  set (P := strconv.FormatUint n) in *.
  pose proof (FormatUint_length n Hn) as HP. fold P in HP.
  pose proof defaultBufSize_ge_100 as Hbuf.
  assert (String_Bencode s +:+ extra = (P +:+ ":") +:+ (s +:+ extra)) as Hin.
  { unfold String_Bencode. fold n P. by rewrite !string_app_assoc. }
  assert (String.length (P +:+ ":") = (String.length P + 1)%nat) as HlenP
    by (by rewrite string_length_app).
  pose proof (fill_NewReader (P +:+ ":") (s +:+ extra)) as Hfill.
  rewrite HlenP in Hfill. fold k in Hfill. specialize (Hfill ltac:(lia)).
  rewrite <- Hin in Hfill.
  assert (lexerImpl_next (newLexer (String_Bencode s +:+ extra))
          = (mkToken str
               (strdata (string_take k s
                         +:+ string_repeat Ascii.zero (String.length s - k))),
             None,
             snd (bufio.Read (String.length s)
                    (bufio.mkReader (string_take k (s +:+ extra))
                                    (string_drop k (s +:+ extra)))))) as Hnext.
  { unfold newLexer. rewrite next_NewReader.
    2:{ rewrite Hfill. cbn [bufio.buf]. destruct P; [|done].
        by rewrite string_app_nil_l. }
    rewrite Hfill, string_app_assoc. change (":" +:+ ?t) with (String ":" t).
    unfold P. rewrite next_String_prefix by done. unfold n. rewrite Nat2N.id.
    rewrite Read_take.
    2:{ destruct (String.length s) eqn:Hs; [by right|left].
        intros HB. apply (f_equal String.length) in HB.
        rewrite string_take_length, string_length_app, Hs in HB.
        unfold k in HB. change (String.length "") with 0%nat in HB.
        assert (∀ a b c d : nat,
                  (a ≤ 64 → 100 ≤ b → (b - (a + 1)) `min` (S c + d) ≠ 0)%nat) as Har
          by (intros; lia).
        exact (Har _ _ _ _ HP Hbuf HB). }
    cbn [snd]. rewrite string_take_take_app, string_take_length.
    replace (String.length s - k `min` String.length s)%nat
      with (String.length s - k)%nat; [done|].
    clear. generalize (String.length s). clearbody k. intros; lia. }
  erewrite Decode_eq_parse; [|by rewrite (parse_S _ 0), Hnext]; done.
Qed.

Lemma string_app_inv_head (s a b : string) : s +:+ a = s +:+ b → a = b.
Proof.
  induction s as [|c s IH]; [done|]. rewrite !string_app_cons. intros [= H]. by apply IH.
Qed.

Lemma string_drop_all (n : nat) (s : string) :
  (String.length s ≤ n)%nat → string_drop n s = "".
Proof.
  revert s. induction n as [|n IH]; intros [|c s]; simpl; try done; [lia|].
  intros H. apply IH. lia.
Qed.

(** X8 (encoded strings): the encoding of a string [s], followed by any
    bytes, decodes to a [String] [out] as long as [s] and a nil error. With
    [k] the room the first buffer load has behind the length prefix and the
    [':'], [out] has the first [k] bytes of [s] and zero bytes from there
    on. So [out] is [s] if and only if every byte of [s] from position [k]
    on is a zero byte; in particular when [s] is not longer than [k]. *)
Theorem X8_encoded_string_is_zero_filled (s extra : string) :
  len_ok s →
  let k := (bufio.defaultBufSize
            - (String.length (strconv.FormatUint (N.of_nat (String.length s))) + 1))%nat in
  let out := string_take k s +:+ string_repeat Ascii.zero (String.length s - k) in
  DecodeString (String_Bencode s +:+ extra) = Ret (Some (VString out)) None tt
  ∧ String.length out = String.length s
  ∧ (out = s ↔ string_drop k s = string_repeat Ascii.zero (String.length s - k))
  ∧ ((String.length s ≤ k)%nat → out = s).
Proof.
  intros Hlen k out.
  assert (out = s ↔ string_drop k s = string_repeat Ascii.zero (String.length s - k))
    as Hiff.
  { unfold out. split.
    - intros H. rewrite <- (string_take_drop k s) in H at 3.
      by apply string_app_inv_head in H.
    - intros <-. apply string_take_drop. }
  split; [exact (Decode_String_Bencode s extra Hlen)|].
  split; [|split; [exact Hiff|]].
  - unfold out. rewrite string_length_app, string_take_length, string_repeat_length.
    clearbody k. clear. lia.
  - intros Hle. apply Hiff. rewrite string_drop_all by done.
    replace (String.length s - k)%nat with 0%nat; [done|]. clearbody k. clear -Hle. lia.
Qed.

Lemma X8_encoded_string_is_zero_filled_witness :
  len_ok "spam"
  ∧ DecodeString "4:spamxyz" = Ret (Some (VString "spam")) None tt
  ∧ len_ok (string_repeat Ascii.zero 5000)
  ∧ DecodeString (String_Bencode (string_repeat Ascii.zero 5000))
    = Ret (Some (VString (string_repeat Ascii.zero 5000))) None tt.
Proof.
  assert (len_ok "spam") as H by (by vm_compute).
  assert (len_ok (string_repeat Ascii.zero 5000)) as H0 by (by vm_compute).
  split; [exact H|].
  split; [exact (proj1 (X8_encoded_string_is_zero_filled "spam" "xyz" H))|].
  split; [exact H0|].
  destruct (X8_encoded_string_is_zero_filled (string_repeat Ascii.zero 5000) "" H0)
    as (Hdec & _ & Hiff & _).
  rewrite string_app_nil_r in Hdec. rewrite Hdec.
  apply (f_equal (λ x, Ret (Some (VString x)) None tt)).
  apply Hiff. vm_compute. reflexivity.
Defined.

(** ** Values without strings, of any size *)

Lemma string_free_induction (P : Bencodable → Prop) :
  (∀ z, P (VInteger (mkInteger (Some z)))) →
  (∀ l, Forall P l → P (VList l)) →
  P (VDict ∅) →
  ∀ v, string_free v → P v.
Proof.
  intros HI HL HD. fix IH 2. intros v [z|l Hl|].
  - apply HI.
  - apply HL. revert l Hl. fix IHl 2. intros l [|x l' Hx Hl'].
    + constructor.
    + constructor; [apply IH, Hx|apply IHl, Hl'].
  - apply HD.
Qed.

Lemma next_content_byte l c t s :
  content l = String c s →
  (c = "d"%char ∧ t = dict) ∨ (c = "l"%char ∧ t = list_) ∨ (c = "e"%char ∧ t = end_) →
  ∃ l', lexerImpl_next l = (mkToken t nodata, None, l') ∧ content l' = s.
Proof.
  intros Hc H. pose proof (ReadByte_content l) as Hrb. rewrite Hc in Hrb.
  destruct Hrb as (l1 & Hrb & Hl1). exists l1. split; [|done].
  unfold lexerImpl_next. rewrite Hrb.
  destruct H as [[-> ->]|[[-> ->]|[-> ->]]]; reflexivity.
Qed.

Lemma parse_end_content l y :
  content l = String "e" y →
  ∃ l', parse lexerImpl_next 1 l = Ret None (Some ErrUnexpectedEnd) l' ∧ content l' = y.
Proof.
  intros Hc. destruct (next_content_byte l "e" end_ y Hc) as (l' & Hn & Hl'); [auto|].
  exists l'. split; [|done]. by rewrite parse_S, Hn.
Qed.

Lemma parseList_stream (vs : list Bencodable) :
  Forall reads_stream vs →
  ∀ out l y, content l = string_concat (Bencode <$> vs) +:+ String "e" y →
    ∃ f l', parseList lexerImpl_next f out l = Ret (out ++ vs)%list None l'
            ∧ content l' = y.
Proof.
  induction 1 as [|v vs Hv _ IH]; intros out l y Hc.
  - change (string_concat (Bencode <$> []) +:+ String "e" y) with (String "e" y) in Hc.
    destruct (parse_end_content l y Hc) as (l' & Hp & Hl').
    exists 2%nat, l'. split; [|done]. rewrite parseList_S, Hp.
    rewrite decide_True by done. by rewrite app_nil_r.
  - rewrite fmap_cons, string_concat_cons in Hc.
    destruct (Hv l _ Hc) as (f1 & l1 & Hf1 & Hl1).
    destruct (IH (out ++ [v])%list l1 y Hl1) as (f2 & l2 & Hf2 & Hl2).
    exists (S (f1 `max` f2)), l2. split; [|done]. rewrite parseList_S.
    rewrite (parse_fuel_mono _ _ _ _ _ _ _ Hf1) by lia.
    rewrite (parseList_fuel_mono _ _ _ _ _ _ _ _ Hf2) by lia.
    by rewrite <- app_assoc.
Qed.

Lemma parse_string_free (v : Bencodable) : string_free v → reads_stream v.
Proof.
  revert v. apply string_free_induction.
  - intros z l y Hc. cbn [Bencode] in Hc. unfold Integer_Bencode in Hc.
    cbn [Integer_i] in Hc. rewrite !string_app_assoc in Hc.
    change ("i" +:+ ?s) with (String "i" s) in Hc.
    change ("e" +:+ y) with (String "e" y) in Hc.
    destruct (next_content_integer l _ _ Hc (Text10_free_e z)) as (l' & Hl' & Hn).
    rewrite SetString10_Text10 in Hn.
    exists 1%nat, l'. split; [|done]. by rewrite parse_S, Hn.
  - intros vs Hvs l y Hc. cbn [Bencode] in Hc. rewrite !string_app_assoc in Hc.
    change ("l" +:+ ?s) with (String "l" s) in Hc.
    change ("e" +:+ y) with (String "e" y) in Hc.
    destruct (next_content_byte l "l" list_ _ Hc) as (l1 & Hn & Hl1); [auto|].
    destruct (parseList_stream vs Hvs [] l1 y Hl1) as (f & l2 & Hf & Hl2).
    exists (S f), l2. split; [|done]. rewrite parse_S, Hn. cbn [tok]. by rewrite Hf.
  - intros l y Hc. change (Bencode (VDict ∅) +:+ y) with (String "d" (String "e" y)) in Hc.
    destruct (next_content_byte l "d" dict _ Hc) as (l1 & Hn & Hl1); [auto|].
    destruct (parse_end_content l1 y Hl1) as (l2 & Hp & Hl2).
    exists 3%nat, l2. split; [|done]. rewrite parse_S, Hn. cbn [tok].
    rewrite parseDict_S, Hp. by rewrite decide_True.
Qed.

(** X9 (round trip without strings): a value built from integers, lists and
    empty dictionaries only is decoded from its encoding to itself, with a
    nil error, whatever its size and whatever bytes follow the encoding. *)
Theorem X9_roundtrip_without_strings_any_size (v : Bencodable) (extra : string) :
  string_free v → DecodeBytes (Bencode v +:+ extra) = Ret (Some v) None tt.
Proof.
  intros Hv. change (DecodeBytes ?b) with (DecodeString b).
  destruct (parse_string_free v Hv (newLexer (Bencode v +:+ extra)) extra eq_refl)
    as (f & l' & Hf & _).
  by rewrite (Decode_eq_parse _ _ _ _ _ Hf).
Qed.

Lemma X9_roundtrip_without_strings_any_size_witness :
  let v := VList [VInt 1; VList [VInt (-20); VDict ∅]; VList []] in
  Bencode v = "li1eli-20edeelee"
  ∧ DecodeBytes (Bencode v +:+ "5:tail") = Ret (Some v) None tt.
Proof.
  intros v. split; [by vm_compute|].
  apply X9_roundtrip_without_strings_any_size.
  repeat constructor.
Defined.

(** ** Errors inside a container *)

Lemma string_concat_nil (rest : string) : string_concat [] +:+ rest = rest.
Proof. reflexivity. Qed.

(** Reading past elements that are buffered. *)
Lemma parseList_skip_elems (vs : list Bencodable) :
  Forall reads_back vs →
  ∀ out tail r f,
    parseList lexerImpl_next f (out ++ vs)%list (bufio.mkReader tail r) ≠ OutOfFuel →
    ∃ f', parseList lexerImpl_next f' out
            (bufio.mkReader (string_concat (Bencode <$> vs) +:+ tail) r)
          = parseList lexerImpl_next f (out ++ vs)%list (bufio.mkReader tail r).
Proof.
  induction 1 as [|v vs Hv _ IH]; intros out tail r f Hfin.
  - exists f. rewrite fmap_nil, string_concat_nil. by rewrite app_nil_r.
  - rewrite fmap_cons, string_concat_cons.
    destruct (Hv (string_concat (Bencode <$> vs) +:+ tail) r) as [f1 Hf1].
    replace (out ++ v :: vs)%list with ((out ++ [v]) ++ vs)%list in *
      by (by rewrite <- app_assoc).
    destruct (IH (out ++ [v])%list tail r f Hfin) as [f2 Hf2].
    exists (S (f1 `max` f2)). rewrite parseList_S.
    rewrite (parse_fuel_mono _ _ _ _ _ _ _ Hf1) by lia.
    destruct (fuel_mono lexerImpl_next f2) as (_ & Hl & _).
    rewrite (Hl _ _ (f1 `max` f2)); [done|lia|]. by rewrite Hf2.
Qed.

(** Reading past pairs that are buffered. *)
Lemma parseDict_skip_entries (kvs : list (string * Bencodable)) :
  Forall (λ kv, len_ok kv.1 ∧ reads_back kv.2) kvs →
  ∀ out tail r f,
    parseDict lexerImpl_next f (write_all kvs out) (bufio.mkReader tail r) ≠ OutOfFuel →
    ∃ f', parseDict lexerImpl_next f' out
            (bufio.mkReader (string_concat (Bencode_pair <$> kvs) +:+ tail) r)
          = parseDict lexerImpl_next f (write_all kvs out) (bufio.mkReader tail r).
Proof.
  induction 1 as [|[k v] kvs [Hk Hv] _ IH]; intros out tail r f Hfin.
  - exists f. by rewrite fmap_nil, string_concat_nil.
  - rewrite fmap_cons, string_concat_cons. unfold Bencode_pair at 1.
    cbn [fst snd] in *. rewrite string_app_assoc.
    destruct (Hv (string_concat (Bencode_pair <$> kvs) +:+ tail) r) as [f1 Hf1].
    change (write_all ((k, v) :: kvs) out) with (write_all kvs (<[k:=v]> out)) in *.
    destruct (IH (<[k:=v]> out) tail r f Hfin) as [f2 Hf2].
    exists (S (S (f1 `max` f2))). rewrite parseDict_S.
    rewrite parse_S, next_String by done. cbn [tok data].
    rewrite decide_False by done.
    rewrite (parse_fuel_mono _ _ _ _ _ _ _ Hf1) by lia.
    destruct (fuel_mono lexerImpl_next f2) as (_ & _ & Hd).
    rewrite (Hd _ _ (S (f1 `max` f2))); [done|lia|]. by rewrite Hf2.
Qed.

(** The first call of the lexer loads the buffer. *)
Lemma parse_first_load (enc extra : string) (f : nat) :
  enc ≠ "" → (String.length enc ≤ bufio.defaultBufSize)%nat →
  parse lexerImpl_next f (newLexer (enc +:+ extra))
  = parse lexerImpl_next f
      (bufio.mkReader
         (enc +:+ string_take (bufio.defaultBufSize - String.length enc) extra)
         (string_drop (bufio.defaultBufSize - String.length enc) extra)).
Proof.
  intros Hne Hlen. destruct f as [|f]; [done|]. rewrite !parse_S.
  pose proof (fill_NewReader enc extra Hlen) as Hfill.
  unfold newLexer. rewrite next_NewReader; [by rewrite Hfill|].
  rewrite Hfill. cbn [bufio.buf]. by destruct enc.
Qed.

(** What [Decode] returns for bytes that fit the buffer, from what [parse]
    returns on them once they are buffered. *)
Lemma Decode_buffered_outcome (enc extra : string) o err :
  enc ≠ "" → (String.length enc ≤ bufio.defaultBufSize)%nat →
  (∀ y r, ∃ f l', parse lexerImpl_next f (bufio.mkReader (enc +:+ y) r) = Ret o err l') →
  DecodeString (enc +:+ extra) =
  match err, o with
  | Some e, None => Ret None (Some e) tt
  | _, _ => Ret o None tt
  end.
Proof.
  intros Hne Hlen Hread.
  destruct (Hread (string_take (bufio.defaultBufSize - String.length enc) extra)
                  (string_drop (bufio.defaultBufSize - String.length enc) extra))
    as (f & l' & Hf).
  rewrite <- (parse_first_load enc extra f Hne Hlen) in Hf.
  exact (Decode_eq_parse _ _ _ _ _ Hf).
Qed.

Lemma parse_at_end_of_input :
  parse lexerImpl_next 1 (bufio.mkReader "" "")
  = Ret None (Some ErrUnexpectedEOF) (bufio.mkReader "" "").
Proof. reflexivity. Qed.

Lemma Forall_pairs_read_back (kvs : list (string * Bencodable)) :
  Forall (λ kv, len_ok kv.1 ∧ well_formed kv.2) kvs →
  Forall (λ kv, len_ok kv.1 ∧ reads_back kv.2) kvs.
Proof.
  intros H. eapply Forall_impl; [exact H|].
  intros kv [H1 H2]. split; [done|by apply parse_Bencode].
Qed.

Lemma Forall_read_back (vs : list Bencodable) :
  Forall well_formed vs → Forall reads_back vs.
Proof. intros H. eapply Forall_impl; [exact H|]. intros v. apply parse_Bencode. Qed.

(** X10 (key without a value): a dictionary whose last key is followed by
    the end marker instead of a value, all within one buffer load, decodes
    to the nil [Dict] and a nil error: the pairs read before that key are
    dropped and [ErrUnexpectedEnd] is not reported. *)
Theorem X10_dict_key_without_value
  (kvs : list (string * Bencodable)) (k extra : string) :
  Forall (λ kv, len_ok kv.1 ∧ well_formed kv.2) kvs → len_ok k →
  (String.length ("d" +:+ string_concat (Bencode_pair <$> kvs) +:+ String_Bencode k +:+ "e")
   ≤ bufio.defaultBufSize)%nat →
  DecodeString
    (("d" +:+ string_concat (Bencode_pair <$> kvs) +:+ String_Bencode k +:+ "e") +:+ extra)
  = Ret (Some (VDict ∅)) None tt.
Proof.
  intros Hkvs Hk Hlen.
  rewrite (Decode_buffered_outcome _ extra (Some (VDict ∅)) (Some ErrUnexpectedEnd));
    [done|done|done|].
  intros y r. rewrite !string_app_assoc.
  change ("d" +:+ ?s) with (String "d" s). change ("e" +:+ y) with (String "e" y).
  assert (parseDict lexerImpl_next 2 (write_all kvs ∅)
            (bufio.mkReader (String_Bencode k +:+ String "e" y) r)
          = Ret ∅ (Some ErrUnexpectedEnd) (bufio.mkReader y r)) as Htail.
  { rewrite parseDict_S, parse_S, next_String by done. cbn [tok data].
    rewrite decide_False by done. by rewrite parse_end. }
  destruct (parseDict_skip_entries kvs (Forall_pairs_read_back kvs Hkvs) ∅
              (String_Bencode k +:+ String "e" y) r 2) as [f Hf].
  { by rewrite Htail. }
  exists (S f), (bufio.mkReader y r).
  rewrite parse_S, (next_byte "d" dict) by auto. cbn [tok].
  by rewrite Hf, Htail.
Qed.

Lemma X10_dict_key_without_value_witness :
  DecodeString "d1:ai1e1:be" = Ret (Some (VDict ∅)) None tt.
Proof.
  apply (X10_dict_key_without_value [("a", VInt 1)] "b" "").
  - repeat constructor; by vm_compute.
  - by vm_compute.
  - vm_compute. lia.
Defined.

(** X11 (key that is no string): when, after the pairs [kvs], a dictionary
    holds a well-formed value [bad] that is not a [String] where a key
    should be, followed by a value, all within one buffer load, [Decode]
    returns the dictionary of the pairs [kvs] and a nil error;
    [ErrBadDictKey] is not reported and the rest of the input is not
    read. *)
Theorem X11_dict_key_that_is_no_string
  (kvs : list (string * Bencodable)) (bad v : Bencodable) (extra : string) :
  Forall (λ kv, len_ok kv.1 ∧ well_formed kv.2) kvs →
  well_formed bad → (∀ s, bad ≠ VString s) → well_formed v →
  (String.length ("d" +:+ string_concat (Bencode_pair <$> kvs) +:+ Bencode bad +:+ Bencode v)
   ≤ bufio.defaultBufSize)%nat →
  DecodeString
    (("d" +:+ string_concat (Bencode_pair <$> kvs) +:+ Bencode bad +:+ Bencode v) +:+ extra)
  = Ret (Some (VDict (write_all kvs ∅))) None tt.
Proof.
  intros Hkvs Hbad Hns Hv Hlen.
  rewrite (Decode_buffered_outcome _ extra (Some (VDict (write_all kvs ∅)))
             (Some ErrBadDictKey)); [done|done|done|].
  intros y r. rewrite !string_app_assoc.
  change ("d" +:+ ?s) with (String "d" s).
  destruct (parse_Bencode bad Hbad (Bencode v +:+ y) r) as [f1 Hf1].
  destruct (parse_Bencode v Hv y r) as [f2 Hf2].
  assert (parseDict lexerImpl_next (S (f1 `max` f2)) (write_all kvs ∅)
            (bufio.mkReader (Bencode bad +:+ Bencode v +:+ y) r)
          = Ret (write_all kvs ∅) (Some ErrBadDictKey) (bufio.mkReader y r)) as Htail.
  { rewrite parseDict_S.
    rewrite (parse_fuel_mono _ _ _ _ _ _ _ Hf1) by lia.
    rewrite decide_False by done.
    rewrite (parse_fuel_mono _ _ _ _ _ _ _ Hf2) by lia.
    destruct bad as [i|s|l|d]; try done. by destruct (Hns s). }
  destruct (parseDict_skip_entries kvs (Forall_pairs_read_back kvs Hkvs) ∅
              (Bencode bad +:+ Bencode v +:+ y) r (S (f1 `max` f2))) as [f Hf].
  { by rewrite Htail. }
  exists (S f), (bufio.mkReader y r).
  rewrite parse_S, (next_byte "d" dict) by auto. cbn [tok].
  by rewrite Hf, Htail.
Qed.

Lemma X11_dict_key_that_is_no_string_witness :
  DecodeString "d1:ai1ei2ei3e1:ci4ee"
  = Ret (Some (VDict {[ "a" := VInt 1 ]})) None tt.
Proof.
  apply (X11_dict_key_that_is_no_string [("a", VInt 1)] (VInt 2) (VInt 3) "1:ci4ee").
  - repeat constructor; by vm_compute.
  - constructor.
  - done.
  - constructor.
  - vm_compute. lia.
Defined.

Lemma string_drop_nil (n : nat) : string_drop n "" = "".
Proof. by destruct n. Qed.

(** What [Decode] returns for an input that fits the buffer, from what
    [parse] returns on it once it is buffered. *)
Lemma Decode_whole_input_buffered (input : string) f o err l' :
  input ≠ "" → (String.length input ≤ bufio.defaultBufSize)%nat →
  parse lexerImpl_next f (bufio.mkReader input "") = Ret o err l' →
  DecodeString input =
  match err, o with
  | Some e, None => Ret None (Some e) tt
  | _, _ => Ret o None tt
  end.
Proof.
  intros Hne Hlen Hf.
  pose proof (parse_first_load input "" f Hne Hlen) as Hload.
  rewrite string_take_nil, string_drop_nil, string_app_nil_r in Hload.
  rewrite <- Hload in Hf.
  exact (Decode_eq_parse _ _ _ _ _ Hf).
Qed.

(** X13 (list cut short): an input that opens a list, holds well-formed
    elements and ends without the end marker, all within one buffer load,
    decodes to the nil [List] and a nil error: the elements read are dropped
    and [ErrUnexpectedEOF] is not reported. *)
Theorem X13_list_cut_short (vs : list Bencodable) :
  Forall well_formed vs →
  (String.length ("l" +:+ string_concat (Bencode <$> vs)) ≤ bufio.defaultBufSize)%nat →
  DecodeString ("l" +:+ string_concat (Bencode <$> vs)) = Ret (Some (VList [])) None tt.
Proof.
  intros Hvs Hlen.
  assert (parseList lexerImpl_next 2 ([] ++ vs)%list (bufio.mkReader "" "")
          = Ret [] (Some ErrUnexpectedEOF) (bufio.mkReader "" "")) as Htail.
  { by rewrite parseList_S, parse_at_end_of_input. }
  destruct (parseList_skip_elems vs (Forall_read_back vs Hvs) [] "" "" 2) as [f Hf].
  { by rewrite Htail. }
  rewrite string_app_nil_r, Htail in Hf.
  rewrite (Decode_whole_input_buffered _ (S f) (Some (VList [])) (Some ErrUnexpectedEOF)
             (bufio.mkReader "" "")); [done|done|done|].
  change ("l" +:+ ?s) with (String "l" s).
  rewrite parse_S, (next_byte "l" list_) by auto. cbn [tok]. by rewrite Hf.
Qed.

Lemma X13_list_cut_short_witness :
  DecodeString "li1e4:spam" = Ret (Some (VList [])) None tt.
Proof.
  apply (X13_list_cut_short [VInt 1; VString "spam"]).
  - repeat constructor; by vm_compute.
  - vm_compute. lia.
Defined.

(** X14 (dictionary cut short): an input that opens a dictionary, holds
    well-formed pairs and ends without the end marker, all within one buffer
    load, decodes to the nil [Dict] and a nil error: the pairs read are
    dropped and [ErrUnexpectedEOF] is not reported. *)
Theorem X14_dict_cut_short (kvs : list (string * Bencodable)) :
  Forall (λ kv, len_ok kv.1 ∧ well_formed kv.2) kvs →
  (String.length ("d" +:+ string_concat (Bencode_pair <$> kvs)) ≤ bufio.defaultBufSize)%nat →
  DecodeString ("d" +:+ string_concat (Bencode_pair <$> kvs)) = Ret (Some (VDict ∅)) None tt.
Proof.
  intros Hkvs Hlen.
  assert (parseDict lexerImpl_next 2 (write_all kvs ∅) (bufio.mkReader "" "")
          = Ret ∅ (Some ErrUnexpectedEOF) (bufio.mkReader "" "")) as Htail.
  { by rewrite parseDict_S, parse_at_end_of_input. }
  destruct (parseDict_skip_entries kvs (Forall_pairs_read_back kvs Hkvs) ∅ "" "" 2)
    as [f Hf].
  { by rewrite Htail. }
  rewrite string_app_nil_r, Htail in Hf.
  rewrite (Decode_whole_input_buffered _ (S f) (Some (VDict ∅)) (Some ErrUnexpectedEOF)
             (bufio.mkReader "" "")); [done|done|done|].
  change ("d" +:+ ?s) with (String "d" s).
  rewrite parse_S, (next_byte "d" dict) by auto. cbn [tok]. by rewrite Hf.
Qed.

Lemma X14_dict_cut_short_witness :
  DecodeString "d1:ai1e1:b4:spam" = Ret (Some (VDict ∅)) None tt.
Proof.
  apply (X14_dict_cut_short [("a", VInt 1); ("b", VString "spam")]).
  - repeat constructor; by vm_compute.
  - vm_compute. lia.
Defined.

(** ** From text to an [Integer], to bytes, and back *)

(** X12 ([NewIntFromString], [Integer.Bencode], [Decode]): the [Integer] that
    [NewIntFromString(s, 10)] returns is encoded and decoded to itself when
    [SetString] accepts [s]. When [SetString] rejects [s], the zero
    [Integer] that comes back encodes as [i<nil>e], which [Decode] refuses
    with the error [Invalid integer.]. *)
Theorem X12_NewIntFromString_Bencode_Decode (s extra : string) :
  DecodeString
    (Integer_Bencode (NewIntFromString (λ s _, big.SetString10 s) s 10).1 +:+ extra)
  = match big.SetString10 s with
    | Some z => Ret (Some (VInteger (mkInteger (Some z)))) None tt
    | None => Ret None (Some ErrInvalidInteger) tt
    end.
Proof.
  unfold NewIntFromString. destruct (big.SetString10 s) as [z|]; cbn [fst].
  - destruct (parse_string_free _ (sf_Integer z)
                (newLexer (Bencode (VInteger (mkInteger (Some z))) +:+ extra)) extra eq_refl)
      as (f & l' & Hf & _).
    exact (Decode_eq_parse _ _ _ _ _ Hf).
  - change (Integer_Bencode (mkInteger None) +:+ extra)
      with (String "i" ("<nil>" +:+ String "e" extra)).
    destruct (next_content_integer (newLexer (String "i" ("<nil>" +:+ String "e" extra)))
                "<nil>" extra eq_refl eq_refl) as (l' & _ & Hn).
    change (big.SetString10 "<nil>") with (@None Z) in Hn.
    erewrite Decode_eq_parse; [|rewrite (parse_S _ 0), Hn; reflexivity]. done.
Qed.

(** ** The errors [Decode] returns *)

Lemma lexerImpl_next_end_or_eof (input : string) t l :
  lexerImpl_next (newLexer input) = (t, None, l) →
  (tok t = end_ → ∃ rest, input = String "e" rest) ∧ (tok t = eof → input = "").
Proof.
  destruct input as [|c rest]; [by intros [= <- <-]|].
  unfold lexerImpl_next, newLexer. rewrite ReadByte_NewReader.
  destruct (Ascii.eqb c "d"); [by intros [= <- <-]|].
  destruct (Ascii.eqb c "l"); [by intros [= <- <-]|].
  destruct (Ascii.eqb_spec c "e") as [->|_].
  { intros [= <- <-]. split; [by eexists|done]. }
  destruct (Ascii.eqb c "i").
  { unfold lexerImpl_parseInt. destruct (bufio.ReadString "e" _) as [[d err] l2].
    destruct err; [done|]. destruct (big.SetString10 _); [|done].
    by intros [= <- <-]. }
  destruct (is_digit c); [|done].
  unfold lexerImpl_parseString. destruct (bufio.ReadString ":" _) as [[d err] l2].
  destruct err; [done|]. destruct (strconv.ParseUint _); [|done].
  destruct (bufio.Read _ _). by intros [= <- <-].
Qed.

(** X15 (errors of [Decode]): an error that [Decode] returns comes with a nil
    value and is never [ErrBadDictKey]; it is [ErrUnexpectedEnd] only for an
    input that starts with ['e'], and [ErrUnexpectedEOF] only for the empty
    input. *)
Theorem X15_errors_of_Decode (input : string) (o : option Bencodable) (e : error) :
  DecodeString input = Ret o (Some e) tt →
  o = None
  ∧ e ≠ ErrBadDictKey
  ∧ (e = ErrUnexpectedEnd → ∃ rest, input = String "e" rest)
  ∧ (e = ErrUnexpectedEOF → input = "").
Proof.
  intros Hdec. pose proof (Decode_first_token input) as H.
  destruct (lexerImpl_next (newLexer input)) as [[t err] l1] eqn:Hn.
  destruct err as [e'|]; cbv beta iota in H.
  - rewrite H in Hdec. injection Hdec as <- <-.
    apply lexerImpl_next_error in Hn as (? & ? & ?). done.
  - apply lexerImpl_next_end_or_eof in Hn as [Hend Heof].
    destruct (tok t).
    1,3,4,5,6: destruct H as [v H]; by rewrite H in Hdec.
    all: rewrite H in Hdec; injection Hdec as <- <-; repeat split; try done.
    + intros _. by apply Hend.
    + intros _. by apply Heof.
Qed.

Lemma X15_errors_of_Decode_witness :
  DecodeString "eli1ee" = Ret None (Some ErrUnexpectedEnd) tt
  ∧ ∃ rest, "eli1ee" = String "e" rest.
Proof.
  assert (DecodeString "eli1ee" = Ret None (Some ErrUnexpectedEnd) tt) as H
    by reflexivity.
  split; [exact H|].
  exact (proj1 (proj2 (proj2 (X15_errors_of_Decode "eli1ee" None ErrUnexpectedEnd H)))
           eq_refl).
Defined.

(** ** The parser over any lexer *)

Section any_lexer.
Context {L : Type} (next : L → dataToken * option error * L) (size : L → nat).

(** The contract of [next]: a token that comes without an error carries the
    data its kind promises, and reading never gives input back; every token
    but [eof] uses some of it up. *)
Hypothesis next_token_ok : ∀ l t l', next l = (t, None, l') → token_ok t.
Hypothesis next_progress : ∀ l t err l', next l = (t, err, l') →
  (size l' ≤ size l)%nat ∧ (err = None → tok t ≠ eof → (size l' < size l)%nat).


End any_lexer.


